(** * Cherrytree router: route map compilation, matching and dispatch

    A shallow embedding of [lib/router.js].  JavaScript strings are
    [string]s, plain objects used as dictionaries are [gmap]s (or an
    association list where the key order of [Object.keys] is observed),
    arrays are lists, and the mutable router object is a record threaded
    through the operations.  Exceptions are an explicit outcome. *)

From Stdlib Require Import Ascii String ZArith.
From stdpp Require Import base option list strings gmap fin_maps.

Open Scope string_scope.
Open Scope list_scope.

Set Warnings "-register-all".

(** ** JavaScript values *)

(** The values that route options, params and query entries hold.  Objects,
    arrays and functions only appear through their identity ([VRef]): [===]
    compares them by reference.  Numbers are integers here; NaN is outside
    the model. *)
Inductive JSVal :=
  | VUndef
  | VNull
  | VBool (b : bool)
  | VNum (n : Z)
  | VStr (s : string)
  | VRef (addr : nat).

#[global] Instance JSVal_eq_dec : EqDecision JSVal.
Proof. solve_decision. Defined.

(** [ToBoolean]: what an [if (v)] or a [!v] sees. *)
Definition truthy (v : JSVal) : bool :=
  match v with
  | VUndef | VNull => false
  | VBool b => b
  | VNum n => negb (n =? 0)%Z
  | VStr s => negb (String.eqb s "")
  | VRef _ => true
  end.

(** [a === b] on the values above. *)
Definition strict_eq (a b : JSVal) : bool := bool_decide (a = b).

(** The members of [Object.prototype], which every plain object inherits:
    eleven functions and, under [__proto__], the prototype object itself.
    Each is an object of its own; the addresses below are theirs, so that
    [VRef 0] is the function [Object], and so on. *)
Definition object_prototype : gmap string JSVal :=
  list_to_map
    [("constructor", VRef 0); ("__defineGetter__", VRef 1);
     ("__defineSetter__", VRef 2); ("hasOwnProperty", VRef 3);
     ("__lookupGetter__", VRef 4); ("__lookupSetter__", VRef 5);
     ("isPrototypeOf", VRef 6); ("propertyIsEnumerable", VRef 7);
     ("toString", VRef 8); ("valueOf", VRef 9);
     ("__proto__", VRef 10); ("toLocaleString", VRef 11)].

(** What the read of a key yields on a plain object that does not own it:
    the member of [Object.prototype] under that key, or [undefined]. *)
Definition inherited (k : string) : JSVal := default VUndef (object_prototype !! k).

(** A plain object holding values; [js_get o k] is the property read [o[k]]:
    the own value of the key, or else what the object inherits for it. *)
Definition js_get (o : gmap string JSVal) (k : string) : JSVal :=
  match o !! k with
  | Some v => v
  | None => inherited k
  end.

(** [Object.keys(o)] for uses where only the set of keys matters. *)
Definition keys {V} (o : gmap string V) : list string := (map_to_list o).*1.

(** ** Outcomes of code that may throw *)

Inductive JSError :=
  | TypeError (msg : string)
  | Error (msg : string).

#[global] Instance JSError_eq_dec : EqDecision JSError.
Proof. solve_decision. Defined.

(** A statement sequence over a state [S] either runs to its end or is cut
    short by a [throw]; the state reached so far is kept in both cases since
    the mutations done before the throw stay visible. *)
Inductive Outcome (S : Type) :=
  | Done (s : S)
  | Thrown (e : JSError) (s : S).
Arguments Done {S} s.
Arguments Thrown {S} e s.

Definition andThen {S} (o : Outcome S) (k : S → Outcome S) : Outcome S :=
  match o with
  | Done s => k s
  | Thrown e s => Thrown e s
  end.

(** A call that returns a value or throws without a state of its own. *)
Inductive Result (A : Type) :=
  | Ok (a : A)
  | Throw (e : JSError).
Arguments Ok {A} a.
Arguments Throw {A} e.

(** ** String helpers used by the router *)

(** [s[0] === '/'] *)
Definition leading_slash (s : string) : bool :=
  match s with
  | String c _ => bool_decide (c = "/"%char)
  | EmptyString => false
  end.

(** [s.replace(/\/$/, '')]: drops one slash at the very end of [s]. *)
Fixpoint strip_trailing_slash (s : string) : string :=
  match s with
  | EmptyString => EmptyString
  | String c EmptyString => if bool_decide (c = "/"%char) then EmptyString else s
  | String c rest => String c (strip_trailing_slash rest)
  end.

(** ** Route tree *)

(** A node of [this.routes], as the route DSLs build it:
    [{ name, path, options, routes }]. *)
Inductive Route := mkRoute {
  r_name : string;
  r_path : string;
  r_options : gmap string JSVal;
  r_routes : list Route
}.

(** [route.options.abstract] as a condition. *)
Definition is_abstract (r : Route) : bool := truthy (js_get (r_options r) "abstract").

(** An entry of [this.matchers]. *)
Record Matcher := mkMatcher {
  m_routes : list Route;
  m_name : string;
  m_path : string
}.

(** *** Path of a branch (router.js, lines 64-72) *)

(** The reducer passed to [routes.reduce]. *)
Definition concat_step (memo : string) (r : Route) : string :=
  strip_trailing_slash
    (if leading_slash (r_path r) then r_path r else memo +:+ "/" +:+ r_path r).

Definition branch_path (routes : list Route) : string :=
  let path := fold_left concat_step routes "" in
  if String.eqb path "" then "/" else path.



(** *** Branch enumeration (router.js, lines 115-123) *)

Section each_branch.
Context {S : Type} (fn : list Route → S → Outcome S).

(** The body of the [forEach] callback in [eachBranch] for one [route]:
    [fn(memo.concat(route))], then the recursive call on the children with
    the extended [memo].  On a childless route the source skips the
    recursive call, which would loop over an empty array. *)
Fixpoint eachBranch_route (memo : list Route) (route : Route) (s : S) : Outcome S :=
  andThen (fn (memo ++ [route]) s) (λ s1,
    match route with
    | mkRoute _ _ _ children =>
        (fix forEach (rs : list Route) (s : S) : Outcome S :=
           match rs with
           | [] => Done s
           | r :: rs' => andThen (eachBranch_route (memo ++ [route]) r s) (forEach rs')
           end) children s1
    end).

(** [eachBranch(node, memo, fn)] with [node.routes = routes]. *)
Fixpoint eachBranch (routes : list Route) (memo : list Route) (s : S) : Outcome S :=
  match routes with
  | [] => Done s
  | r :: rs' => andThen (eachBranch_route memo r s) (eachBranch rs' memo)
  end.

(** Running [fn] over a list of branches, stopping at the first throw. *)
Fixpoint run_branches (bs : list (list Route)) (s : S) : Outcome S :=
  match bs with
  | [] => Done s
  | b :: bs' => andThen (fn b s) (run_branches bs')
  end.
End each_branch.

(** The branches in the order [eachBranch] hands them to its callback:
    a node's own branch first, then those of its subtree, depth first. *)
Fixpoint branches_route (memo : list Route) (route : Route) : list (list Route) :=
  (memo ++ [route]) ::
  match route with
  | mkRoute _ _ _ children => flat_map (branches_route (memo ++ [route])) children
  end.

Definition branches (routes : list Route) (memo : list Route) : list (list Route) :=
  flat_map (branches_route memo) routes.

(** *** The matcher list (router.js, lines 55-113) *)

(** The three locals of [map]: [matchers], [dupes] and [abstracts].
    [dupes] is only read by key.  [abstracts] is enumerated with
    [Object.keys], so it keeps its keys in insertion order; every key is a
    branch path, which starts with a slash, so none is an array index. *)
Record MapState := mkMapState {
  ms_matchers : list Matcher;
  ms_dupes : gmap string string;
  ms_abstracts : list (string * string)
}.

(** [o[k] = v] on an object whose key order matters: a known key keeps its
    place, a new key goes last. *)
Fixpoint obj_set (k v : string) (o : list (string * string)) : list (string * string) :=
  match o with
  | [] => [(k, v)]
  | (k', v') :: o' => if String.eqb k' k then (k, v) :: o' else (k', v') :: obj_set k v o'
  end.

(** [dupes[path]] as a condition: a name is recorded and is not the empty
    string. *)
Definition dupe_at (dupes : gmap string string) (path : string) : bool :=
  match dupes !! path with
  | Some n => truthy (VStr n)
  | None => false
  end.

Definition dupe_message (first second path : string) : string :=
  "Routes " +:+ first +:+ " and " +:+ second +:+
  " have the same url path '" +:+ path +:+ "'".

(** The callback [map] passes to [eachBranch] (lines 62-94). *)
Definition register_branch (routes : list Route) (st : MapState) : Outcome MapState :=
  let path := branch_path routes in
  match last routes with
  | None => Thrown (TypeError "Cannot read properties of undefined (reading 'options')") st
  | Some lastRoute =>
      if is_abstract lastRoute then
        Done (mkMapState (ms_matchers st) (ms_dupes st)
                (obj_set path (r_name lastRoute) (ms_abstracts st)))
      else
        let pushed := ms_matchers st ++ [mkMatcher routes (r_name lastRoute) path] in
        if dupe_at (ms_dupes st) path then
          Thrown (Error (dupe_message (default "" (ms_dupes st !! path)) (r_name lastRoute) path))
                 (mkMapState pushed (ms_dupes st) (ms_abstracts st))
        else
          Done (mkMapState pushed (<[path := r_name lastRoute]> (ms_dupes st)) (ms_abstracts st))
  end.

(** One round of the loop over [Object.keys(abstracts)] (lines 97-113);
    [name] is [abstracts[path]]. *)
Definition add_alias (dupes : gmap string string) (entry : string * string)
    (matchers : list Matcher) : Outcome (list Matcher) :=
  let '(path, name) := entry in
  if negb (dupe_at dupes path) then Done matchers
  else
    match find (λ m, String.eqb (m_path m) path) matchers with
    | None => Thrown (TypeError "Cannot read properties of undefined (reading 'routes')") matchers
    | Some matcher => Done (matchers ++ [mkMatcher (m_routes matcher) name path])
    end.

Fixpoint add_aliases (dupes : gmap string string) (entries : list (string * string))
    (matchers : list Matcher) : Outcome (list Matcher) :=
  match entries with
  | [] => Done matchers
  | e :: es => andThen (add_alias dupes e matchers) (add_aliases dupes es)
  end.

(** The matcher list that [map] leaves in [this.matchers] for a route tree,
    or the exception it throws together with the list built until then. *)
Definition compile_matchers (routes : list Route) : Outcome (list Matcher) :=
  match eachBranch register_branch routes [] (mkMapState [] ∅ []) with
  | Thrown e st => Thrown e (ms_matchers st)
  | Done st => add_aliases (ms_dupes st) (ms_abstracts st) (ms_matchers st)
  end.

(** *** Vocabulary for the properties of [map] *)

(** The last route of a branch is not abstract. *)
Definition concrete (b : list Route) : bool :=
  from_option (λ leaf, negb (is_abstract leaf)) false (last b).

(** The last route of a branch is abstract. *)
Definition abstract_branch (b : list Route) : bool :=
  from_option is_abstract false (last b).

(** The name of the last route of a branch. *)
Definition leaf_name (b : list Route) : string := from_option r_name "" (last b).

(** The matcher pushed for a concrete branch. *)
Definition matcher_of (b : list Route) : Matcher :=
  mkMatcher b (leaf_name b) (branch_path b).

(** [dupes] and [abstracts] after the given branches have been recorded. *)
Definition record_dupes (dupes : gmap string string) (bs : list (list Route))
    : gmap string string :=
  foldl (λ d b, <[branch_path b := leaf_name b]> d) dupes bs.

Definition record_abstracts (abstracts : list (string * string)) (bs : list (list Route))
    : list (string * string) :=
  foldl (λ o b, obj_set (branch_path b) (leaf_name b) o) abstracts bs.

(** The entry the alias loop appends for one key of [abstracts], if any. *)
Definition alias_of (dupes : gmap string string) (base : list Matcher)
    (entry : string * string) : option Matcher :=
  if dupe_at dupes entry.1
  then (λ m, mkMatcher (m_routes m) entry.2 entry.1)
         <$> find (λ m, String.eqb (m_path m) entry.1) base
  else None.

(** ** Collaborators of the router *)

(** A params, query or options object. *)
Abbreviation Dict := (gmap string JSVal).

(** What [router.js] imports from [./path].  [extractQuery] stands for
    [extractQuery(this.options.qs, ·)]; it and [extractParams] answer [None]
    where the JavaScript functions return a falsy value. *)
Class PathLib := {
  withoutQuery : string → string;
  extractQuery : string → option Dict;
  extractParams : string → string → option Dict;
  extractParamNames : string → list string
}.

(** What [router.js] imports from [./dash]. *)
Class Dash := {
  pick : Dict → list string → Dict;
  clone : Dict → Dict;
  isEqual : Dict → Dict → bool
}.

(** What [router.js] imports from [./constants]. *)
Class Constants := {
  TRANSITION_CANCELLED : string;
  TRANSITION_REDIRECTED : string
}.

(** A registered middleware; its body is not modelled. *)
Record Middleware := mkMiddleware { mw_name : string }.

(** ** Match results, transitions and the router *)

(** An element of [match(path).routes]. *)
Record Descriptor := mkDescriptor {
  d_name : string;
  d_path : string;
  d_params : Dict;
  d_options : Dict
}.

(** The object [match] returns. *)
Record MatchResult := mkMatchResult {
  mr_routes : list Descriptor;
  mr_params : Dict;
  mr_pathname : string;
  mr_query : Dict
}.

(** The error object handed to [cancel]: [type], [message] and, when set,
    [nextPath]. *)
Record TError := mkTError {
  e_type : string;
  e_message : string;
  e_nextPath : option string
}.

(** The state tag of a transition. *)
Inductive TStatus := Pending | Cancelled | Redirected | Completed | Failed.

#[global] Instance TStatus_eq_dec : EqDecision TStatus.
Proof. solve_decision. Defined.

(** A transition object.  [t_error] is the error its outcome was rejected
    with; [t_chain] is the middleware chain it runs. *)
Record Transition := mkTransition {
  t_id : Z;
  t_path : option string;
  t_pathname : string;
  t_query : Dict;
  t_params : Dict;
  t_routes : list Descriptor;
  t_noop : bool;
  t_status : TStatus;
  t_error : option TError;
  t_chain : list Middleware
}.

(** The argument of the transition factory; [router: this] is the world the
    factory runs in. *)
Record TransitionOptions := mkTransitionOptions {
  o_id : Z;
  o_path : option string;
  o_match : MatchResult;
  o_noop : bool
}.

(** The match data a completed transition leaves in [this.state]. *)
Record Committed := mkCommitted {
  c_path : option string;
  c_pathname : string;
  c_params : Dict;
  c_query : Dict;
  c_routes : list Descriptor
}.

(** [this.state]: empty ([{}], every field reads [undefined]) on a new or
    destroyed router, otherwise the committed match data; next to it the
    [activeTransition] slot, which refers to a transition object. *)
Record RouterState := mkState {
  committed : option Committed;
  activeTransition : option nat
}.

(** The router object.  [routes] and [matchers] are [undefined] until
    [map] has run. *)
Record Router := mkRouter {
  nextId : Z;
  state : RouterState;
  middleware : list Middleware;
  routes : option (list Route);
  matchers : option (list Matcher)
}.

(** The router together with the transition objects created so far; a
    transition is referred to by its position in [heap]. *)
Record World := mkWorld {
  router : Router;
  heap : list Transition
}.

Definition set_state (st : RouterState) (r : Router) : Router :=
  mkRouter (nextId r) st (middleware r) (routes r) (matchers r).

Definition set_activeTransition (a : option nat) (r : Router) : Router :=
  set_state (mkState (committed (state r)) a) r.

(** [function Cherrytree (options = {})] without [options.routes]. *)
Definition new_router : Router := mkRouter 1 (mkState None None) [] None None.

(** [use(middleware)] *)
Definition use (m : Middleware) (r : Router) : Router :=
  mkRouter (nextId r) (state r) (middleware r ++ [m]) (routes r) (matchers r).

(** [map(routes)], on the route tree the DSL built. *)
Definition map_routes (tree : list Route) (r : Router) : Outcome Router :=
  match compile_matchers tree with
  | Done ms => Done (mkRouter (nextId r) (state r) (middleware r) (Some tree) (Some ms))
  | Thrown e ms => Thrown e (mkRouter (nextId r) (state r) (middleware r) (Some tree) (Some ms))
  end.

(** [this.state.routes || []], [this.state.params || {}] and
    [this.state.query || {}]. *)
Definition activeRoutes (r : Router) : list Descriptor :=
  from_option c_routes [] (committed (state r)).
Definition activeParams (r : Router) : Dict :=
  from_option c_params ∅ (committed (state r)).
Definition activeQuery (r : Router) : Dict :=
  from_option c_query ∅ (committed (state r)).

(** [isActive(name, params, query)] (lines 241-254); an omitted [params] or
    [query] is [None]. *)
Definition isActive (r : Router) (name : string) (params query : option Dict) : bool :=
  let params := default ∅ params in
  let query := default ∅ query in
  let isActive := existsb (λ route, String.eqb (d_name route) name) (activeRoutes r) in
  let isActive := isActive &&
    forallb (λ key, strict_eq (js_get (activeParams r) key) (js_get params key)) (keys params) in
  let isActive := isActive &&
    forallb (λ key, strict_eq (js_get (activeQuery r) key) (js_get query key)) (keys query) in
  isActive.


Definition set_matchers (ms : option (list Matcher)) (r : Router) : Router :=
  mkRouter (nextId r) (state r) (middleware r) (routes r) ms.

Section router.
Context `{PathLib} `{Dash} `{Constants}.

(** [(path || '').replace(/\/$/, '') || '/'] *)
Definition trim_path (path : option string) : string :=
  let p := strip_trailing_slash (default "" path) in
  if String.eqb p "" then "/" else p.

(** The [some] loop of [match] (lines 300-306): the params and routes of
    the first matcher whose [extractParams] is not null, if there is one. *)
Fixpoint some_matcher (pathWithoutQuery : string) (ms : list Matcher)
    : option (Dict * list Route) :=
  match ms with
  | [] => None
  | matcher :: rest =>
      match extractParams (m_path matcher) pathWithoutQuery with
      | Some params => Some (params, m_routes matcher)
      | None => some_matcher pathWithoutQuery rest
      end
  end.

Definition descriptor (params : Dict) (route : Route) : Descriptor :=
  mkDescriptor (r_name route) (r_path route)
    (pick params (extractParamNames (r_path route)))
    (clone (r_options route)).

(** [match(path)] (lines 294-328). *)
Definition match_path (r : Router) (path : option string) : Result MatchResult :=
  match matchers r with
  | None => Throw (TypeError "Cannot read properties of undefined (reading 'some')")
  | Some ms =>
      let path := trim_path path in
      let pathWithoutQuery := withoutQuery path in
      let found := some_matcher pathWithoutQuery ms in
      Ok (mkMatchResult
            (from_option (λ '(params, routes), map (descriptor params) routes) [] found)
            (from_option fst ∅ found)
            pathWithoutQuery
            (default ∅ (extractQuery path)))
  end.

(** Modelled from the spec: the factory of [./transition], which is not
    among the sources.  It creates a new transition object carrying the
    id, the path and the match data; the object starts pending with the
    router's middleware as its chain, except that a no-op transition has
    nothing to run and is settled at once.  The router itself is left as
    it is. *)
Definition transition (o : TransitionOptions) (w : World) : nat * World :=
  let t := mkTransition (o_id o) (o_path o)
             (mr_pathname (o_match o)) (mr_query (o_match o))
             (mr_params (o_match o)) (mr_routes (o_match o))
             (o_noop o)
             (if o_noop o then Completed else Pending)
             None
             (if o_noop o then [] else middleware (router w)) in
  (length (heap w), mkWorld (router w) (heap w ++ [t])).

(** Modelled from the spec: the [cancel] operation of a transition, from
    [./transition].  A pending transition moves to redirected or cancelled
    according to the error's type tag, its outcome is rejected with the
    error (a plain cancellation error when none is given), and the
    router's slot is cleared if it holds this transition.  A settled
    transition stays as it is. *)
Definition cancel (l : nat) (err : option TError) (w : World) : World :=
  match heap w !! l with
  | Some t =>
      match t_status t with
      | Pending =>
          let e := default (mkTError TRANSITION_CANCELLED TRANSITION_CANCELLED None) err in
          let tag := if String.eqb (e_type e) TRANSITION_REDIRECTED
                     then Redirected else Cancelled in
          let t' := mkTransition (t_id t) (t_path t) (t_pathname t) (t_query t)
                      (t_params t) (t_routes t) (t_noop t) tag (Some e) (t_chain t) in
          let r := router w in
          mkWorld (if bool_decide (activeTransition (state r) = Some l)
                   then set_activeTransition None r else r)
                  (<[l := t']> (heap w))
      | _ => w
      end
  | None => w
  end.

(** Modelled from the spec: the completion of a transition, from
    [./transition].  When the chain of a pending transition has run, the
    transition is completed, its match data becomes the router's
    committed state and the slot is cleared. *)
Definition complete (l : nat) (w : World) : World :=
  match heap w !! l with
  | Some t =>
      match t_status t with
      | Pending =>
          let t' := mkTransition (t_id t) (t_path t) (t_pathname t) (t_query t)
                      (t_params t) (t_routes t) (t_noop t) Completed None (t_chain t) in
          let c := mkCommitted (t_path t) (t_pathname t) (t_params t) (t_query t)
                     (t_routes t) in
          mkWorld (set_state (mkState (Some c) None) (router w)) (<[l := t']> (heap w))
      | _ => w
      end
  | None => w
  end.

(** [destroy()] (lines 219-230), without the location and the link
    interception. *)
Definition destroy (w : World) : World :=
  let w1 := match activeTransition (state (router w)) with
            | Some active => cancel active None w
            | None => w
            end in
  mkWorld (set_state (mkState None None) (router w1)) (heap w1).

(** [this.nextId++] followed by the call of the factory. *)
Definition start_transition (path : option string) (m : MatchResult) (noop : bool)
    (w : World) : nat * World :=
  let id := nextId (router w) in
  let r := router w in
  let w1 := mkWorld (mkRouter (id + 1) (state r) (middleware r) (routes r) (matchers r))
                    (heap w) in
  transition (mkTransitionOptions id path m noop) w1.

(** [dispatch(path)] (lines 330-381).  The result is the transition
    returned and the world after the call.  The early returns of the source
    are the branches that end in [Ok] without reaching the last one; the
    local [activeTransition] keeps its value across [cancel], so the no-op
    test is only reached when the slot was empty on entry.  A slot that
    refers to no transition object cannot arise in JavaScript; the case is
    there to make the function total. *)
Definition dispatch (path : option string) (w : World) : Result (nat * World) :=
  match match_path (router w) path with
  | Throw e => Throw e
  | Ok match_ =>
      let query := mr_query match_ in
      let pathname := mr_pathname match_ in
      match activeTransition (state (router w)) with
      | Some active =>
          match heap w !! active with
          | None => Throw (TypeError "Cannot read properties of undefined (reading 'pathname')")
          | Some t =>
              if String.eqb (t_pathname t) pathname && isEqual (t_query t) query
              then Ok (active, w)
              else
                let err := mkTError TRANSITION_REDIRECTED TRANSITION_REDIRECTED path in
                let w1 := cancel active (Some err) w in
                let '(t', w2) := start_transition path match_ false w1 in
                Ok (t', mkWorld (set_activeTransition (Some t') (router w2)) (heap w2))
          end
      | None =>
          if match committed (state (router w)) with
             | Some c => String.eqb (c_pathname c) pathname && isEqual (c_query c) query
             | None => false
             end
          then Ok (start_transition path match_ true w)
          else
            let '(t', w2) := start_transition path match_ false w in
            Ok (t', mkWorld (set_activeTransition (Some t') (router w2)) (heap w2))
      end
  end.

(** No matcher of [ms] matches [pathname]. *)
Definition unmatched (pathname : string) (ms : list Matcher) : Prop :=
  Forall (λ m, extractParams (m_path m) pathname = None) ms.

(** The active-transition slot, when set, refers to an allocated
    transition object. *)
Definition slot_allocated (w : World) : Prop :=
  ∀ l, activeTransition (state (router w)) = Some l → is_Some (heap w !! l).

(** At most one transition is pending, and it is the one in the router's
    slot. *)
Definition single_pending (w : World) : Prop :=
  ∀ l t, heap w !! l = Some t → t_status t = Pending →
         activeTransition (state (router w)) = Some l.
End router.

(** ** A reference implementation of the collaborators

    The path helpers, the object helpers and the constants are not among the
    sources; the definitions below follow their description in the
    specification and serve to run the router on concrete inputs. *)

Module Reference.

(** The pieces of [s] between the occurrences of [c]. *)
Fixpoint split_on (c : ascii) (s : string) : list string :=
  match s with
  | EmptyString => [EmptyString]
  | String a rest =>
      if bool_decide (a = c) then EmptyString :: split_on c rest
      else match split_on c rest with
           | [] => [String a EmptyString]
           | seg :: segs => String a seg :: segs
           end
  end.

(** [s] up to the first [c], and what follows that [c] if there is one. *)
Fixpoint split_first (c : ascii) (s : string) : string * option string :=
  match s with
  | EmptyString => (EmptyString, None)
  | String a rest =>
      if bool_decide (a = c) then (EmptyString, Some rest)
      else let '(before, after) := split_first c rest in (String a before, after)
  end.

(** Modelled from the spec: [withoutQuery] of [./path], the part of a
    path before its query string. *)
Definition withoutQuery (path : string) : string := fst (split_first "?" path).

(** Modelled from the spec: the [decode] of the query codec, on
    [key=value] pairs joined by [&]. *)
Definition decode (q : string) : Dict :=
  foldr (λ pair acc,
           if String.eqb pair "" then acc
           else let '(k, v) := split_first "=" pair in <[k := VStr (default "" v)]> acc)
        ∅ (split_on "&" q).

(** Modelled from the spec: [extractQuery] of [./path], the decoded query
    string of a path, if it has one. *)
Definition extractQuery (path : string) : option Dict :=
  match snd (split_first "?" path) with
  | Some q => if String.eqb q "" then None else Some (decode q)
  | None => None
  end.

(** Segment-wise matching: a pattern segment that starts with a colon
    binds a non-empty path segment to its name, any other segment has to
    be the same in the pattern and in the path. *)
Fixpoint match_segments (pat path : list string) (acc : Dict) : option Dict :=
  match pat, path with
  | [], [] => Some acc
  | p :: pat', seg :: path' =>
      match p with
      | String ":" name =>
          if String.eqb seg "" then None
          else match_segments pat' path' (<[name := VStr seg]> acc)
      | _ => if String.eqb p seg then match_segments pat' path' acc else None
      end
  | _, _ => None
  end.

(** Modelled from the spec: [extractParams] of [./path], the match of a
    pattern against a pathname, both split at the slashes once a trailing
    slash is trimmed. *)
Definition extractParams (pattern pathname : string) : option Dict :=
  match_segments (split_on "/" (strip_trailing_slash pattern))
                 (split_on "/" (strip_trailing_slash pathname)) ∅.

(** Modelled from the spec: [extractParamNames] of [./path], the capture
    names of a pattern in order. *)
Definition extractParamNames (pattern : string) : list string :=
  omap (λ p, match p with String ":" name => Some name | _ => None end)
       (split_on "/" pattern).

(** Modelled from the spec: [pick] of [./dash], the entries of an object
    under the given names. *)
Definition pick (o : Dict) (names : list string) : Dict :=
  filter (λ kv, kv.1 ∈ names) o.

(** Modelled from the spec: [clone] of [./dash]; a copy has the entries
    of the original. *)
Definition clone (o : Dict) : Dict := o.

(** Modelled from the spec: [isEqual] of [./dash], value equality of two
    objects. *)
Definition isEqual (a b : Dict) : bool := bool_decide (a = b).

#[export] Instance path_lib : PathLib :=
  Build_PathLib withoutQuery extractQuery extractParams extractParamNames.

#[export] Instance dash : Dash := Build_Dash pick clone isEqual.

(** Modelled from the spec: the two type tags of [./constants]. *)
#[export] Instance constants : Constants :=
  Build_Constants "TransitionCancelled" "TransitionRedirected".

End Reference.

(** ** Example routers *)

Module Example.
#[local] Existing Instances Reference.path_lib Reference.dash Reference.constants.

Definition abstract_options : Dict := {[ "abstract" := VBool true ]}.

(** [posts] at "/posts" with the child [post] at ":id", and next to it
    [fallback] at "/posts/:slug". *)
Definition post : Route := mkRoute "post" ":id" ∅ [].
Definition posts : Route := mkRoute "posts" "/posts" ∅ [post].
Definition fallback : Route := mkRoute "fallback" "/posts/:slug" ∅ [].
Definition tree : list Route := [posts; fallback].

(** An abstract [app] at "/" around an abstract [sec] at "" that has the
    index route [home]. *)
Definition home : Route := mkRoute "home" "" ∅ [].
Definition sec : Route := mkRoute "sec" "" abstract_options [home].
Definition app : Route := mkRoute "app" "/" abstract_options [sec].

(** An abstract [layout] at "/" with the index route [index] at "/". *)
Definition index : Route := mkRoute "index" "/" ∅ [].
Definition layout : Route := mkRoute "layout" "/" abstract_options [index].

(** Two routes at "a" with their own names. *)
Definition first_a : Route := mkRoute "a" "a" ∅ [].
Definition second_a : Route := mkRoute "b" "a" ∅ [].

(** Two routes at "a", the first of them with the empty name. *)
Definition unnamed : Route := mkRoute "" "a" ∅ [].
Definition named : Route := mkRoute "b" "a" ∅ [].

Definition after_map (o : Outcome Router) : Router :=
  match o with Done r => r | Thrown _ r => r end.

Definition after_dispatch (o : Result (nat * World)) (w : World) : World :=
  match o with Ok (_, w') => w' | Throw _ => w end.

(** A router with [tree] mapped and nothing dispatched yet. *)
Definition mapped : Router := after_map (map_routes tree new_router).
Definition idle : World := mkWorld mapped [].

(** The same router while its first transition is pending, and after
    that transition has completed. *)
Definition first_path : option string := Some "/posts/42?sort=desc".
Definition busy : World := after_dispatch (dispatch first_path idle) idle.
Definition settled : World := complete 0 busy.

(** The match of [first_path], the transition started for it and the
    state it commits. *)
Definition first_match : MatchResult :=
  mkMatchResult (map (descriptor {[ "id" := VStr "42" ]}) [posts; post])
    {[ "id" := VStr "42" ]} "/posts/42" {[ "sort" := VStr "desc" ]}.
Definition first_transition : Transition :=
  mkTransition 1 first_path (mr_pathname first_match) (mr_query first_match)
    (mr_params first_match) (mr_routes first_match) false Pending None [].
Definition first_committed : Committed :=
  mkCommitted first_path (mr_pathname first_match) (mr_params first_match)
    (mr_query first_match) (mr_routes first_match).
End Example.

(** ** Shape of the route tree *)

(** The number of route nodes of a tree. *)
Fixpoint route_size (r : Route) : nat :=
  match r with
  | mkRoute _ _ _ children =>
      S ((fix sum (rs : list Route) : nat :=
            match rs with
            | [] => 0
            | c :: rs' => route_size c + sum rs'
            end) children)
  end.

Fixpoint tree_size (tree : list Route) : nat :=
  match tree with
  | [] => 0
  | r :: rs => route_size r + tree_size rs
  end.

(** [is_chain roots b]: [b] starts at one of [roots] and each further route
    is a child of the one before it. *)
Inductive is_chain : list Route → list Route → Prop :=
  | is_chain_last roots r :
      r ∈ roots → is_chain roots [r]
  | is_chain_cons roots r b :
      r ∈ roots → is_chain (r_routes r) b → is_chain roots (r :: b).

(** ** Navigation: [generate], [doTransition], [transitionTo], [replaceWith] *)

(** What [generate] imports from [./path].  [withQuery] stands for
    [withQuery(this.options.qs, ·, ·)]; [injectParams] may throw. *)
Class PathBuild := {
  withQuery : string → Dict → string;
  injectParams : string → option Dict → Result string
}.

(** What [router.js] imports from [./invariant]: the error thrown by
    [invariant(false, format)]. *)
Class InvariantLib := {
  invariant_violation : string → JSError
}.

(** The location adapter in [this.location], with the state [L] it keeps.
    [setURL] and [replaceURL] are the calls with [{ trigger: false }]. *)
Class Location (L : Type) := {
  getURL : L → string;
  setURL : string → L → L;
  replaceURL : string → L → L;
  formatURL : L → string → string;
  removeRoot : L → string → string
}.

(** The router with what [generate] and [doTransition] use beyond the
    matchers and the state: [this.location] ([undefined] before [listen]),
    [this.options.pushState] as a condition, and the handlers attached with
    [transition.catch] in [doTransition], each as the transition it is
    attached to and the [previousUrl] it restores on a cancellation. *)
Record App (L : Type) := mkApp {
  app_world : World;
  app_location : option L;
  app_pushState : bool;
  app_catch : list (nat * string)
}.
Arguments mkApp {L} _ _ _ _.
Arguments app_world {L} _.
Arguments app_location {L} _.
Arguments app_pushState {L} _.
Arguments app_catch {L} _.

(** The two location methods [doTransition] is called with. *)
Inductive Method := SetURL | ReplaceURL.

(** The [forEach] of [generate] (lines 201-205): [matcher] ends up as the
    last matcher of the list that has the name. *)
Definition last_named (name : string) (ms : list Matcher) : option Matcher :=
  fold_left (λ matcher m, if String.eqb (m_name m) name then Some m else matcher) ms None.

(** [url.replace(/^#/, '/')] *)
Definition replace_leading_hash (url : string) : string :=
  match url with
  | String c rest => if bool_decide (c = "#"%char) then String "/" rest else url
  | EmptyString => url
  end.

Section navigation.
Context `{PathLib} `{Dash} `{Constants} `{PathBuild} `{InvariantLib}.
Context {L : Type} `{Location L}.

(** [generate(name, params, query)] (lines 195-213). *)
Definition generate (a : App L) (name : string) (params query : option Dict)
    : Result string :=
  match app_location a with
  | None => Throw (invariant_violation "call .listen() before using .generate()")
  | Some location =>
      let query := default ∅ query in
      match matchers (router (app_world a)) with
      | None => Throw (TypeError "Cannot read properties of undefined (reading 'forEach')")
      | Some ms =>
          match last_named name ms with
          | None => Throw (Error ("No route is named " +:+ name))
          | Some matcher =>
              match injectParams (m_path matcher) params with
              | Throw e => Throw e
              | Ok path => Ok (formatURL location (withQuery path query))
              end
          end
      end
  end.

(** [this.location[method](url, { trigger: false })] *)
Definition call_method (method : Method) (url : string) (location : L) : L :=
  match method with
  | SetURL => setURL url location
  | ReplaceURL => replaceURL url location
  end.

(** [doTransition(method, params)] (lines 259-285) with
    [params = [url, params, query]]. *)
Definition doTransition (method : Method) (url : string) (params query : option Dict)
    (a : App L) : Result (nat * App L) :=
  match app_location a with
  | None => Throw (TypeError "Cannot read properties of undefined (reading 'getURL')")
  | Some location =>
      let previousUrl := getURL location in
      match (if leading_slash url then Ok url
             else match generate a url params query with
                  | Throw e => Throw e
                  | Ok generated => Ok (replace_leading_hash generated)
                  end) with
      | Throw e => Throw e
      | Ok url =>
          let url := if app_pushState a then removeRoot location url else url in
          match dispatch (Some url) (app_world a) with
          | Throw e => Throw e
          | Ok (transition, w) =>
              Ok (transition,
                  mkApp w (Some (call_method method url location)) (app_pushState a)
                    (app_catch a ++ [(transition, previousUrl)]))
          end
      end
  end.

(** The body of the handler [doTransition] attaches (lines 274-280), run on
    the rejection [err] of the transition. *)
Definition restore_on_cancel (previousUrl : string) (err : option TError) (location : L) : L :=
  match err with
  | Some e =>
      if String.eqb (e_type e) TRANSITION_CANCELLED
      then replaceURL previousUrl location else location
  | None => location
  end.

(** [replaceWith(url, params, query)] (lines 182-184). *)
Definition replaceWith (url : string) (params query : option Dict) (a : App L)
    : Result (nat * App L) :=
  doTransition ReplaceURL url params query a.

(** [transitionTo(url, params, query)] (lines 165-170). *)
Definition transitionTo (url : string) (params query : option Dict) (a : App L)
    : Result (nat * App L) :=
  match activeTransition (state (router (app_world a))) with
  | Some _ => replaceWith url params query a
  | None => doTransition SetURL url params query a
  end.
End navigation.

(** ** A reference implementation of the navigation collaborators *)

Module ReferenceNav.

(** The pieces of a list of strings joined with [sep] between them. *)
Fixpoint join (sep : string) (pieces : list string) : string :=
  match pieces with
  | [] => ""
  | [piece] => piece
  | piece :: rest => piece +:+ sep +:+ join sep rest
  end.

Definition show (v : JSVal) : string :=
  match v with
  | VStr s => s
  | _ => ""
  end.

(** Modelled from the spec: the [encode] of the query codec, [key=value]
    pairs joined by [&]. *)
Definition encode (query : Dict) : string :=
  join "&" ((λ kv, kv.1 +:+ "=" +:+ show kv.2) <$> map_to_list query).

(** Modelled from the spec: [withQuery] of [./path], the path followed by
    its encoded query, if there is one. *)
Definition withQuery (path : string) (query : Dict) : string :=
  if decide (query = ∅) then path else path +:+ "?" +:+ encode query.

(** One segment of a rendered pattern: a capture is replaced by the value
    supplied for it. *)
Definition render_segment (params : Dict) (segment : string) : option string :=
  match segment with
  | String ":" name => show <$> params !! name
  | _ => Some segment
  end.

(** Modelled from the spec: [injectParams] of [./path], the pattern with
    each capture replaced by its value; it fails when a value is missing. *)
Definition injectParams (pattern : string) (params : option Dict) : Result string :=
  match mapM (render_segment (default ∅ params)) (Reference.split_on "/" pattern) with
  | Some segments => Ok (join "/" segments)
  | None => Throw (Error ("Missing params for " +:+ pattern))
  end.

(** Modelled from the spec: a location adapter that keeps the history in
    memory, the current URL first; [formatURL] and [removeRoot] leave a URL
    as it is. *)
Definition memory_getURL (history : list string) : string := default "" (head history).
Definition memory_setURL (url : string) (history : list string) : list string :=
  url :: history.
Definition memory_replaceURL (url : string) (history : list string) : list string :=
  url :: tail history.

#[export] Instance path_build : PathBuild := Build_PathBuild withQuery injectParams.

(** Modelled from the spec: the error of a violated invariant. *)
#[export] Instance invariant_lib : InvariantLib :=
  Build_InvariantLib (λ format, Error ("Invariant Violation: " +:+ format)).

#[export] Instance memory_location : Location (list string) :=
  Build_Location (list string) memory_getURL memory_setURL memory_replaceURL
    (λ _ url, url) (λ _ url, url).

End ReferenceNav.

(** ** Example routers with a location *)

Module ExampleNav.
#[local] Existing Instances Reference.path_lib Reference.dash Reference.constants.
#[local] Existing Instances ReferenceNav.path_build ReferenceNav.invariant_lib
  ReferenceNav.memory_location.

(** The example router, listening with a memory location, while its first
    transition is pending. *)
Definition site : App (list string) :=
  mkApp Example.busy (Some ["/posts/42?sort=desc"; "/"]) false [].

(** The same router before [listen]. *)
Definition offline : App (list string) := mkApp Example.busy None false [].

(** The world of [site] after another path has been dispatched. *)
Definition redirected : World :=
  Example.after_dispatch (dispatch (Some "/posts/43") Example.busy) Example.busy.

(** A router mapped from the tree of [Example.app], listening. *)
Definition nested_tree : list Route := [Example.app].
Definition nested_router : Router :=
  Example.after_map (map_routes nested_tree new_router).
Definition nested_site : App (list string) :=
  mkApp (mkWorld nested_router []) (Some ["/"]) false [].

(** The branches of [nested_tree]. *)
Definition app_branch : list Route := [Example.app].
Definition sec_branch : list Route := [Example.app; Example.sec].
Definition home_branch : list Route := [Example.app; Example.sec; Example.home].
End ExampleNav.

(** ** Invariants of the transition ids *)

(** Every transition object has an id below [this.nextId]. *)
Definition ids_below (w : World) : Prop :=
  ∀ l t, heap w !! l = Some t → (t_id t < nextId (router w))%Z.

(** No two transition objects have the same id. *)
Definition ids_distinct (w : World) : Prop :=
  ∀ l1 l2 t1 t2, heap w !! l1 = Some t1 → heap w !! l2 = Some t2 →
                 t_id t1 = t_id t2 → l1 = l2.

(** ** Theorems: path normalisation *)

(** [strip_trailing_slash] drops a slash that ends the string, and only
    that. *)
Lemma strip_trailing_slash_snoc s : strip_trailing_slash (s +:+ "/") = s.
Proof.
  induction s as [|c s IH]; [done|].
  change (String c s +:+ "/") with (String c (s +:+ "/")).
  simpl. rewrite IH. by destruct s.
Qed.

Lemma strip_trailing_slash_other s :
  (∀ s', s ≠ s' +:+ "/") → strip_trailing_slash s = s.
Proof.
  induction s as [|c s IH]; intros Hs; [done|]. simpl. destruct s as [|c' s].
  - case_bool_decide as Hc; [|done]. subst c. by destruct (Hs "").
  - f_equal. apply IH. intros s' Hs'. apply (Hs (String c s')). simpl. by rewrite Hs'.
Qed.




(** ** Theorems: the traversal of [map] *)

(** Induction on a route tree with the hypothesis for all children. *)
Lemma Route_tree_ind (P : Route → Prop) :
  (∀ n p o rs, Forall P rs → P (mkRoute n p o rs)) → ∀ r, P r.
Proof.
  intros IH. fix F 1. intros [n p o rs]. apply IH.
  induction rs as [|r rs IHrs]; constructor; [apply F|apply IHrs].
Qed.

Section traversal.
Context {S : Type} (fn : list Route → S → Outcome S).

Lemma run_branches_app bs1 bs2 s :
  run_branches fn (bs1 ++ bs2) s = andThen (run_branches fn bs1 s) (run_branches fn bs2).
Proof.
  revert s. induction bs1 as [|b bs1 IH]; intros s; simpl; [done|].
  destruct (fn b s) as [s1|e s1]; simpl; [apply IH|done].
Qed.

(** [eachBranch] calls [fn] on the branches of [branches], in that order. *)
Lemma eachBranch_route_run route :
  ∀ memo s, eachBranch_route fn memo route s = run_branches fn (branches_route memo route) s.
Proof.
  induction route as [n p o rs IH] using Route_tree_ind. intros memo s. simpl.
  destruct (fn (memo ++ [mkRoute n p o rs]) s) as [s1|e s1]; simpl; [|done].
  generalize (memo ++ [mkRoute n p o rs]). intros memo'. revert s1.
  induction IH as [|r rs Hr _ IHrs]; intros s1; simpl; [done|].
  rewrite run_branches_app, Hr.
  destruct (run_branches fn (branches_route memo' r) s1); simpl; [apply IHrs|done].
Qed.

Lemma eachBranch_run tree memo s :
  eachBranch fn tree memo s = run_branches fn (branches tree memo) s.
Proof.
  revert s. unfold branches. induction tree as [|r rs IH]; intros s; simpl; [done|].
  rewrite run_branches_app, eachBranch_route_run.
  destruct (run_branches fn (branches_route memo r) s); simpl; [apply IH|done].
Qed.
End traversal.

(** Every branch ends in the route it was made for. *)
Lemma branches_route_last memo route b :
  b ∈ branches_route memo route → is_Some (last b).
Proof.
  revert memo b. induction route as [n p o rs IH] using Route_tree_ind.
  intros memo b. simpl. rewrite elem_of_cons. intros [->|Hin].
  - rewrite last_snoc. by eexists.
  - apply list_elem_of_In, in_flat_map in Hin as (r & Hr & Hb).
    rewrite Forall_forall in IH. apply list_elem_of_In in Hr, Hb. by eapply IH.
Qed.

Lemma branches_last tree memo b : b ∈ branches tree memo → is_Some (last b).
Proof.
  unfold branches. intros Hin.
  apply list_elem_of_In, in_flat_map in Hin as (r & Hr & Hb).
  apply list_elem_of_In in Hb. by eapply branches_route_last.
Qed.

(** *** Branch paths start with a slash *)

Lemma strip_trailing_slash_leading s :
  leading_slash s = true →
  strip_trailing_slash s = "" ∨ leading_slash (strip_trailing_slash s) = true.
Proof.
  destruct s as [|c [|c' s']]; simpl; [done| |].
  - intros ->. by left.
  - intros Hc. by right.
Qed.

Lemma concat_step_leading memo r :
  memo = "" ∨ leading_slash memo = true →
  concat_step memo r = "" ∨ leading_slash (concat_step memo r) = true.
Proof.
  intros Hmemo. unfold concat_step. apply strip_trailing_slash_leading.
  destruct (leading_slash (r_path r)) eqn:E; [done|].
  destruct Hmemo as [->|Hm]; [done|]. by destruct memo.
Qed.

Lemma branch_path_leading_slash b : leading_slash (branch_path b) = true.
Proof.
  unfold branch_path.
  assert (∀ memo, memo = "" ∨ leading_slash memo = true →
            fold_left concat_step b memo = "" ∨
            leading_slash (fold_left concat_step b memo) = true) as Hfold.
  { induction b as [|r b IH]; intros memo Hmemo; simpl; [done|].
    apply IH. by apply concat_step_leading. }
  cbv zeta. destruct (Hfold "" (or_introl eq_refl)) as [->|Hl]; [done|].
  by destruct (String.eqb_spec (fold_left concat_step b "") "").
Qed.

(** *** What the callback does to the three locals *)

Lemma concrete_not_abstract b : is_Some (last b) → concrete b = negb (abstract_branch b).
Proof. intros [r Hr]. unfold concrete, abstract_branch. by rewrite Hr. Qed.

Lemma register_branch_abstract b st :
  abstract_branch b = true →
  register_branch b st =
    Done (mkMapState (ms_matchers st) (ms_dupes st)
            (obj_set (branch_path b) (leaf_name b) (ms_abstracts st))).
Proof.
  unfold abstract_branch, register_branch, leaf_name.
  destruct (last b) as [r|]; simpl; [|done]. by intros ->.
Qed.

Lemma register_branch_fresh b st :
  concrete b = true →
  dupe_at (ms_dupes st) (branch_path b) = false →
  register_branch b st =
    Done (mkMapState (ms_matchers st ++ [matcher_of b])
            (<[branch_path b := leaf_name b]> (ms_dupes st)) (ms_abstracts st)).
Proof.
  unfold concrete, register_branch, matcher_of, leaf_name.
  destruct (last b) as [r|]; simpl; [|done].
  intros Hr ->. by destruct (is_abstract r).
Qed.

Lemma register_branch_dupe b st :
  concrete b = true →
  dupe_at (ms_dupes st) (branch_path b) = true →
  register_branch b st =
    Thrown (Error (dupe_message (default "" (ms_dupes st !! branch_path b))
                     (leaf_name b) (branch_path b)))
           (mkMapState (ms_matchers st ++ [matcher_of b]) (ms_dupes st) (ms_abstracts st)).
Proof.
  unfold concrete, register_branch, matcher_of, leaf_name.
  destruct (last b) as [r|]; simpl; [|done].
  intros Hr ->. by destruct (is_abstract r).
Qed.

(** A traversal that runs to its end has pushed one matcher for each
    concrete branch, in order, and none for an abstract one; [dupes] holds
    the concrete branches and [abstracts] the abstract ones. *)
Lemma traversal_done bs st st' :
  run_branches register_branch bs st = Done st' →
  ms_matchers st' = ms_matchers st ++ (matcher_of <$> filter concrete bs) ∧
  ms_dupes st' = record_dupes (ms_dupes st) (filter concrete bs) ∧
  ms_abstracts st' = record_abstracts (ms_abstracts st) (filter abstract_branch bs).
Proof.
  revert st. induction bs as [|b bs IH]; intros st; simpl.
  - intros [= <-]. by rewrite app_nil_r.
  - destruct (last b) as [r|] eqn:Hlast.
    2:{ unfold register_branch. by rewrite Hlast. }
    pose proof (concrete_not_abstract b (mk_is_Some _ _ Hlast)) as Hc.
    destruct (abstract_branch b) eqn:Ha; simpl in Hc.
    + rewrite register_branch_abstract by done. simpl. intros Hrun.
      apply IH in Hrun as (Hm & Hd & Hab). simpl in *.
      rewrite filter_cons_False by (rewrite Hc; auto).
      rewrite (filter_cons_True (λ b, abstract_branch b)) by (by rewrite Ha).
      done.
    + destruct (dupe_at (ms_dupes st) (branch_path b)) eqn:Hdup.
      * by rewrite register_branch_dupe.
      * rewrite register_branch_fresh by done. simpl. intros Hrun.
        apply IH in Hrun as (Hm & Hd & Hab). simpl in *.
        rewrite filter_cons_True by (by rewrite Hc).
        rewrite (filter_cons_False (λ b, abstract_branch b)) by (rewrite Ha; auto).
        rewrite Hm, Hd, Hab. simpl. by rewrite <- app_assoc.
Qed.

(** *** The registry of paths *)

Lemma record_dupes_cons d c cs :
  record_dupes d (c :: cs) = record_dupes (<[branch_path c := leaf_name c]> d) cs.
Proof. reflexivity. Qed.

Lemma record_dupes_other d cs p :
  p ∉ branch_path <$> cs → record_dupes d cs !! p = d !! p.
Proof.
  revert d. induction cs as [|c cs IH]; intros d Hp; [done|].
  rewrite fmap_cons, not_elem_of_cons in Hp. destruct Hp as [Hne Hp].
  rewrite record_dupes_cons, IH by done. by rewrite lookup_insert_ne.
Qed.

Lemma record_dupes_at d cs b :
  NoDup (branch_path <$> cs) → b ∈ cs →
  record_dupes d cs !! branch_path b = Some (leaf_name b).
Proof.
  revert d. induction cs as [|c cs IH]; intros d Hnd Hb; [by apply elem_of_nil in Hb|].
  rewrite fmap_cons in Hnd. apply NoDup_cons in Hnd as [Hc Hnd].
  rewrite record_dupes_cons. apply elem_of_cons in Hb as [->|Hb].
  - rewrite record_dupes_other by done. apply lookup_insert_eq.
  - by apply IH.
Qed.

Lemma dupe_at_insert_ne d p q n : p ≠ q → dupe_at (<[p := n]> d) q = dupe_at d q.
Proof. intros Hne. unfold dupe_at. by rewrite lookup_insert_ne. Qed.

Lemma dupe_at_recorded cs p :
  dupe_at (record_dupes ∅ cs) p = true → ∃ b, b ∈ cs ∧ branch_path b = p.
Proof.
  intros Hd. destruct (decide (p ∈ branch_path <$> cs)) as [Hin|Hout].
  - apply list_elem_of_fmap in Hin as (b & -> & Hb). eauto.
  - unfold dupe_at in Hd. by rewrite record_dupes_other, lookup_empty in Hd.
Qed.

(** *** When the traversal runs to its end *)

Lemma traversal_succeeds bs st :
  (∀ b, b ∈ bs → is_Some (last b)) →
  NoDup (branch_path <$> filter concrete bs) →
  (∀ b, b ∈ filter concrete bs → dupe_at (ms_dupes st) (branch_path b) = false) →
  ∃ st', run_branches register_branch bs st = Done st'.
Proof.
  revert st. induction bs as [|b bs IH]; intros st Hlast Hnd Hfresh; simpl; [eauto|].
  pose proof (concrete_not_abstract b (Hlast b (list_elem_of_here _ _))) as Hc.
  assert (∀ b', b' ∈ bs → is_Some (last b')) as Hlast'
    by (intros b' Hb'; apply Hlast; by right).
  destruct (abstract_branch b) eqn:Ha; simpl in Hc.
  - rewrite register_branch_abstract by done. simpl.
    rewrite filter_cons_False in Hnd, Hfresh by (rewrite Hc; auto).
    by apply IH.
  - rewrite filter_cons_True in Hnd, Hfresh by (by rewrite Hc).
    rewrite fmap_cons in Hnd. apply NoDup_cons in Hnd as [Hb Hnd].
    rewrite register_branch_fresh by (auto using list_elem_of_here). simpl.
    apply IH; [done..|]. simpl. intros b' Hb'.
    rewrite dupe_at_insert_ne.
    + apply Hfresh. by right.
    + intros Heq. apply Hb. rewrite Heq. by apply list_elem_of_fmap_2.
Qed.

(** *** The alias loop *)

Lemma find_app_l {A} (f : A → bool) l1 l2 x :
  find f l1 = Some x → find f (l1 ++ l2) = Some x.
Proof.
  induction l1 as [|y l1 IH]; simpl; [done|]. by destruct (f y).
Qed.

Lemma find_is_Some {A} (f : A → bool) l x : x ∈ l → f x = true → is_Some (find f l).
Proof.
  induction 1 as [x l|x y l _ IH]; simpl; intros Hx.
  - rewrite Hx. by eexists.
  - destruct (f y); [by eexists|by apply IH].
Qed.

Lemma add_aliases_done dupes entries base extra :
  (∀ p, dupe_at dupes p = true →
        is_Some (find (λ m, String.eqb (m_path m) p) base)) →
  add_aliases dupes entries (base ++ extra) =
    Done (base ++ extra ++ omap (alias_of dupes base) entries).
Proof.
  intros Hbase. revert extra.
  induction entries as [|[p n] es IH]; intros extra; simpl.
  - by rewrite app_nil_r.
  - unfold alias_of at 1. simpl. destruct (dupe_at dupes p) eqn:Hd; simpl.
    + destruct (Hbase p Hd) as [m Hm]. rewrite (find_app_l _ _ _ _ Hm), Hm. simpl.
      rewrite <- (app_assoc base), IH. by rewrite <- app_assoc.
    + apply IH.
Qed.

Lemma add_aliases_base dupes entries base :
  (∀ p, dupe_at dupes p = true →
        is_Some (find (λ m, String.eqb (m_path m) p) base)) →
  add_aliases dupes entries base = Done (base ++ omap (alias_of dupes base) entries).
Proof.
  intros Hbase. pose proof (add_aliases_done dupes entries base [] Hbase) as Hx.
  by rewrite app_nil_r in Hx.
Qed.

Lemma recorded_matcher_found cs p :
  dupe_at (record_dupes ∅ cs) p = true →
  is_Some (find (λ m, String.eqb (m_path m) p) (matcher_of <$> cs)).
Proof.
  intros Hp. apply dupe_at_recorded in Hp as (b & Hb & <-).
  apply (find_is_Some _ _ (matcher_of b)); [by apply list_elem_of_fmap_2|].
  apply String.eqb_refl.
Qed.

(** The matcher list of a [map] that returns: the matchers of the concrete
    branches in traversal order, then one alias for each key of
    [abstracts], in key order, at which [dupes] holds a non-empty name. *)
Lemma compile_matchers_done tree ms :
  compile_matchers tree = Done ms →
  ms = (matcher_of <$> filter concrete (branches tree [])) ++
       omap (alias_of (record_dupes ∅ (filter concrete (branches tree [])))
                      (matcher_of <$> filter concrete (branches tree [])))
            (record_abstracts [] (filter abstract_branch (branches tree []))).
Proof.
  unfold compile_matchers. rewrite eachBranch_run.
  destruct (run_branches register_branch (branches tree []) (mkMapState [] ∅ []))
    as [st|e st] eqn:Hrun; [|done].
  apply traversal_done in Hrun as (Hm & Hd & Ha). simpl in *.
  rewrite Hm, Hd, Ha.
  rewrite add_aliases_base by apply recorded_matcher_found. by intros [= <-].
Qed.

(** A route tree whose concrete branches have pairwise distinct paths is
    mapped without an exception. *)
Lemma map_distinct_paths_succeeds tree :
  NoDup (branch_path <$> filter concrete (branches tree [])) →
  ∃ ms, compile_matchers tree = Done ms.
Proof.
  intros Hnd.
  destruct (traversal_succeeds (branches tree []) (mkMapState [] ∅ [])) as [st Hst].
  - intros b. apply branches_last.
  - done.
  - intros b _. unfold dupe_at. simpl. by rewrite lookup_empty.
  - apply traversal_done in Hst as Hshape. destruct Hshape as (Hm & Hd & Ha).
    unfold compile_matchers. rewrite eachBranch_run, Hst. simpl in *.
    rewrite Hm, Hd, Ha.
    rewrite add_aliases_base by apply recorded_matcher_found. by eexists.
Qed.

(** *** When the traversal throws *)

Lemma filter_snoc_concrete pre b :
  filter concrete (pre ++ [b]) =
    filter concrete pre ++ (if concrete b then [b] else []).
Proof.
  rewrite filter_app. f_equal. destruct (concrete b) eqn:Hc.
  - by rewrite filter_cons_True by (by rewrite Hc).
  - by rewrite filter_cons_False by (rewrite Hc; auto).
Qed.

Lemma traversal_throws bs : ∀ pre st,
  (∀ b, b ∈ bs → is_Some (last b)) →
  (∀ b, b ∈ filter concrete (pre ++ bs) → leaf_name b ≠ "") →
  NoDup (branch_path <$> filter concrete pre) →
  ms_dupes st = record_dupes ∅ (filter concrete pre) →
  ¬ NoDup (branch_path <$> filter concrete (pre ++ bs)) →
  ∃ l1 b1 l2 b2 l3 st',
    pre ++ bs = l1 ++ b1 :: l2 ++ b2 :: l3 ∧
    concrete b1 = true ∧ concrete b2 = true ∧
    branch_path b1 = branch_path b2 ∧
    run_branches register_branch bs st =
      Thrown (Error (dupe_message (leaf_name b1) (leaf_name b2) (branch_path b2))) st'.
Proof.
  induction bs as [|b bs IH]; intros pre st Hlast Hnames Hnd Hdupes Hdup.
  - by rewrite app_nil_r in Hdup.
  - pose proof (concrete_not_abstract b (Hlast b (list_elem_of_here _ _))) as Hc.
    assert (∀ b', b' ∈ bs → is_Some (last b')) as Hlast'
      by (intros b' Hb'; apply Hlast; by right).
    assert (pre ++ b :: bs = (pre ++ [b]) ++ bs) as Hsplit by (by rewrite <- app_assoc).
    simpl. destruct (abstract_branch b) eqn:Ha; simpl in Hc.
    + rewrite register_branch_abstract by done. simpl.
      rewrite Hsplit in Hnames, Hdup |- *.
      apply IH; try done.
      * by rewrite filter_snoc_concrete, Hc, app_nil_r.
      * simpl. by rewrite filter_snoc_concrete, Hc, app_nil_r.
    + destruct (decide (branch_path b ∈ branch_path <$> filter concrete pre))
        as [Hin|Hout].
      * apply list_elem_of_fmap in Hin as (b1 & Hpath & Hb1).
        assert (leaf_name b1 ≠ "") as Hname.
        { apply Hnames. rewrite filter_app. apply elem_of_app. by left. }
        assert (ms_dupes st !! branch_path b = Some (leaf_name b1)) as Hlook.
        { rewrite Hdupes, Hpath. by apply record_dupes_at. }
        apply list_elem_of_filter in Hb1 as [Hc1 Hb1].
        apply list_elem_of_split in Hb1 as (l1 & l2 & ->).
        rewrite register_branch_dupe.
        -- rewrite Hlook. simpl. exists l1, b1, l2, b, bs. eexists.
           split; [by rewrite <- app_assoc|].
           split; [by apply Is_true_true|]. by rewrite Hpath.
        -- done.
        -- unfold dupe_at. rewrite Hlook. simpl.
           by destruct (String.eqb_spec (leaf_name b1) "").
      * rewrite register_branch_fresh; [|done|].
        2:{ unfold dupe_at. by rewrite Hdupes, record_dupes_other, lookup_empty. }
        simpl. rewrite Hsplit in Hnames, Hdup |- *.
        apply IH; try done.
        -- rewrite filter_snoc_concrete, Hc, fmap_app. apply NoDup_app.
           split; [done|]. split; [|apply NoDup_singleton].
           intros p Hp Hp'. apply list_elem_of_singleton in Hp'. by subst.
        -- simpl. rewrite filter_snoc_concrete, Hc, Hdupes.
           unfold record_dupes. by rewrite foldl_snoc.
Qed.

(** A route tree in which two concrete branches have the same path, and no
    concrete branch ends in a route with the empty name, makes [map] throw
    an error that names two such branches and their path. *)
Lemma map_duplicate_paths_throw tree :
  (∀ b, b ∈ filter concrete (branches tree []) → leaf_name b ≠ "") →
  ¬ NoDup (branch_path <$> filter concrete (branches tree [])) →
  ∃ l1 b1 l2 b2 l3 ms,
    branches tree [] = l1 ++ b1 :: l2 ++ b2 :: l3 ∧
    concrete b1 = true ∧ concrete b2 = true ∧
    branch_path b1 = branch_path b2 ∧
    compile_matchers tree =
      Thrown (Error (dupe_message (leaf_name b1) (leaf_name b2) (branch_path b2))) ms.
Proof.
  intros Hnames Hdup.
  destruct (traversal_throws (branches tree []) [] (mkMapState [] ∅ []))
    as (l1 & b1 & l2 & b2 & l3 & st' & Hsplit & Hc1 & Hc2 & Hpath & Hrun);
    try done.
  - intros b. apply branches_last.
  - constructor.
  - exists l1, b1, l2, b2, l3, (ms_matchers st').
    unfold compile_matchers. by rewrite eachBranch_run, Hrun.
Qed.

(** *** What the matcher list holds *)

Lemma alias_of_Some dupes base entry m :
  alias_of dupes base entry = Some m →
  dupe_at dupes entry.1 = true ∧ m_path m = entry.1 ∧ m_name m = entry.2 ∧
  ∃ m0, m0 ∈ base ∧ m_path m0 = entry.1 ∧ m_routes m = m_routes m0.
Proof.
  unfold alias_of. destruct (dupe_at dupes entry.1); [|done].
  destruct (find _ base) as [m0|] eqn:Hfind; [|done]. simpl. intros [= <-].
  apply find_some in Hfind as [Hin Hpath]. repeat split; simpl.
  exists m0. split; [by apply list_elem_of_In|]. split; [|done].
  by apply String.eqb_eq.
Qed.

(** Every entry of the matcher list, alias or not, carries the routes of a
    concrete branch and the path computed for that branch. *)
Lemma compiled_matcher_branch tree ms m :
  compile_matchers tree = Done ms → m ∈ ms →
  m_routes m ∈ branches tree [] ∧ concrete (m_routes m) = true ∧
  m_path m = branch_path (m_routes m).
Proof.
  intros Hms Hm. rewrite (compile_matchers_done _ _ Hms) in Hm.
  assert (∀ m0, m0 ∈ matcher_of <$> filter concrete (branches tree []) →
            m_routes m0 ∈ branches tree [] ∧ concrete (m_routes m0) = true ∧
            m_path m0 = branch_path (m_routes m0)) as Hbase.
  { intros m0 Hm0. apply list_elem_of_fmap in Hm0 as (b & -> & Hb).
    apply list_elem_of_filter in Hb as [Hc Hb]. simpl.
    split; [done|]. split; [by apply Is_true_true|done]. }
  apply elem_of_app in Hm as [Hm|Hm]; [by apply Hbase|].
  apply list_elem_of_omap in Hm as (entry & _ & Halias).
  apply alias_of_Some in Halias as (_ & Hpath & _ & m0 & Hm0 & Hpath0 & Hroutes).
  rewrite Hroutes, Hpath, <- Hpath0. by apply Hbase.
Qed.

(** A path that no concrete branch has is the path of no entry: an
    abstract branch alone at its path gets no alias. *)
Lemma map_no_entry_without_concrete tree ms p :
  compile_matchers tree = Done ms →
  (∀ c, c ∈ branches tree [] → concrete c = true → branch_path c ≠ p) →
  ∀ m, m ∈ ms → m_path m ≠ p.
Proof.
  intros Hms Hnone m Hm.
  destruct (compiled_matcher_branch tree ms m Hms Hm) as (Hin & Hc & ->).
  by apply Hnone.
Qed.

(** An abstract branch is not the branch of any entry. *)
Lemma map_abstract_not_registered tree ms b :
  compile_matchers tree = Done ms → abstract_branch b = true →
  ∀ m, m ∈ ms → m_routes m ≠ b.
Proof.
  intros Hms Ha m Hm Heq.
  destruct (compiled_matcher_branch tree ms m Hms Hm) as (Hin & Hc & _).
  rewrite Heq in Hc, Hin.
  rewrite (concrete_not_abstract b (branches_last _ _ _ Hin)), Ha in Hc. done.
Qed.

(** *** The alias of the last abstract branch at a path *)

Lemma obj_set_here k v o : (k, v) ∈ obj_set k v o.
Proof.
  induction o as [|[k' v'] o IH]; simpl; [by left|].
  destruct (String.eqb_spec k' k); [by left|by right].
Qed.

Lemma obj_set_other k v k' v' o : k' ≠ k → (k', v') ∈ o → (k', v') ∈ obj_set k v o.
Proof.
  intros Hne. induction o as [|[k0 v0] o IH]; simpl; intros Hin.
  - by apply elem_of_nil in Hin.
  - destruct (String.eqb_spec k0 k) as [->|Hk0].
    + apply elem_of_cons in Hin as [[= -> ->]|Hin]; [done|by right].
    + apply elem_of_cons in Hin as [->|Hin]; [by left|right; by apply IH].
Qed.

Lemma record_abstracts_last o l1 b l2 :
  (∀ b', b' ∈ l2 → branch_path b' ≠ branch_path b) →
  (branch_path b, leaf_name b) ∈ record_abstracts o (l1 ++ b :: l2).
Proof.
  induction l2 as [|x l2 IH] using rev_ind; intros Hlater.
  - unfold record_abstracts. rewrite foldl_snoc. apply obj_set_here.
  - replace (l1 ++ b :: l2 ++ [x]) with ((l1 ++ b :: l2) ++ [x])
      by (by rewrite <- app_assoc).
    unfold record_abstracts. rewrite foldl_snoc. apply obj_set_other.
    + intros Heq. apply (Hlater x); [|done]. apply elem_of_app. right. by left.
    + apply IH. intros b' Hb'. apply Hlater. apply elem_of_app. by left.
Qed.

Lemma find_unique {A} (f : A → bool) l x :
  x ∈ l → f x = true → (∀ y, y ∈ l → f y = true → y = x) → find f l = Some x.
Proof.
  intros Hx Hfx Huniq. destruct (find f l) as [y|] eqn:Hfind.
  - apply find_some in Hfind as [Hy Hfy]. f_equal. apply Huniq; [|done].
    by apply list_elem_of_In.
  - apply list_elem_of_In in Hx. by rewrite (find_none _ _ Hfind x Hx) in Hfx.
Qed.

(** When [map] returns and no concrete branch ends in a route with the
    empty name: an abstract branch that no later abstract branch shares its
    path with, and whose path is that of a concrete branch, has an alias
    entry under its name with the routes of that concrete branch. *)
Lemma map_alias_of_last_abstract tree ms l1 b l2 c :
  compile_matchers tree = Done ms →
  (∀ b', b' ∈ filter concrete (branches tree []) → leaf_name b' ≠ "") →
  filter abstract_branch (branches tree []) = l1 ++ b :: l2 →
  (∀ b', b' ∈ l2 → branch_path b' ≠ branch_path b) →
  c ∈ branches tree [] → concrete c = true → branch_path c = branch_path b →
  mkMatcher c (leaf_name b) (branch_path b) ∈ ms.
Proof.
  intros Hms Hnames Habs Hlater Hc Hconc Hpath.
  assert (NoDup (branch_path <$> filter concrete (branches tree []))) as Hnd.
  { destruct (decide (NoDup (branch_path <$> filter concrete (branches tree []))))
      as [Hnd|Hdup]; [done|].
    destruct (map_duplicate_paths_throw tree Hnames Hdup)
      as (? & ? & ? & ? & ? & ? & _ & _ & _ & _ & Hthrow).
    by rewrite Hms in Hthrow. }
  assert (c ∈ filter concrete (branches tree [])) as Hcin.
  { apply list_elem_of_filter. split; [by apply Is_true_true|done]. }
  rewrite (compile_matchers_done _ _ Hms). apply elem_of_app. right.
  apply list_elem_of_omap. exists (branch_path b, leaf_name b). split.
  - rewrite Habs. by apply record_abstracts_last.
  - unfold alias_of. simpl.
    assert (dupe_at (record_dupes ∅ (filter concrete (branches tree [])))
              (branch_path b) = true) as ->.
    { unfold dupe_at. rewrite <- Hpath, (record_dupes_at _ _ c) by done. simpl.
      specialize (Hnames c Hcin). by destruct (String.eqb_spec (leaf_name c) ""). }
    rewrite (find_unique _ _ (matcher_of c)); [done| | |].
    + by apply list_elem_of_fmap_2.
    + simpl. rewrite Hpath. apply String.eqb_refl.
    + intros m0 Hm0 Hp0. apply list_elem_of_fmap in Hm0 as (c' & -> & Hc').
      simpl in Hp0. apply String.eqb_eq in Hp0. f_equal.
      apply (NoDup_fmap_1 branch_path) in Hnd as Hnd'.
      destruct (list_elem_of_split _ _ Hc') as (k1 & k2 & Hk).
      rewrite Hk, fmap_app, fmap_cons in Hnd. rewrite Hk in Hcin.
      apply NoDup_app in Hnd as (_ & Hk1 & Hk2). apply NoDup_cons in Hk2 as [Hk2 _].
      apply elem_of_app in Hcin as [Hcin|Hcin].
      * exfalso. apply (Hk1 (branch_path c')); [|by left].
        rewrite Hp0, <- Hpath. by apply list_elem_of_fmap_2.
      * apply elem_of_cons in Hcin as [->|Hcin]; [done|].
        exfalso. apply Hk2. rewrite Hp0, <- Hpath. by apply list_elem_of_fmap_2.
Qed.


(** ** Theorems: [isActive] *)

Lemma strict_eq_true a b : strict_eq a b = true ↔ a = b.
Proof. unfold strict_eq. apply bool_decide_eq_true. Qed.

Lemma elem_of_keys {V} (o : gmap string V) k : k ∈ keys o ↔ is_Some (o !! k).
Proof.
  unfold keys. rewrite list_elem_of_fmap. split.
  - intros ([k' v] & -> & Hin). apply elem_of_map_to_list in Hin. by exists v.
  - intros [v Hv]. exists (k, v). split; [done|]. by apply elem_of_map_to_list.
Qed.


Lemma js_get_missing (o : Dict) k : o !! k = None → js_get o k = inherited k.
Proof. intros Hk. unfold js_get. by rewrite Hk. Qed.


(** The option key read by [map] is not a member of [Object.prototype]. *)
Lemma inherited_abstract : inherited "abstract" = VUndef.
Proof. by vm_compute. Qed.

Lemma every_key_subset (active supplied : Dict) :
  forallb (λ key, strict_eq (js_get active key) (js_get supplied key)) (keys supplied) = true
  ↔ ∀ k v, supplied !! k = Some v → js_get active k = v.
Proof.
  rewrite forallb_forall. split.
  - intros Hall k v Hk. specialize (Hall k).
    rewrite strict_eq_true in Hall. rewrite Hall.
    + unfold js_get. by rewrite Hk.
    + apply list_elem_of_In, elem_of_keys. by exists v.
  - intros Hall k Hin. apply list_elem_of_In, elem_of_keys in Hin as [v Hv].
    apply strict_eq_true. rewrite (Hall k v Hv). unfold js_get. by rewrite Hv.
Qed.


(** ** Theorems: [match] and [dispatch] *)

Section router_facts.
Context `{PathLib} `{Dash} `{Constants}.

Lemma some_matcher_first pathname pre m post ps :
  unmatched pathname pre →
  extractParams (m_path m) pathname = Some ps →
  some_matcher pathname (pre ++ m :: post) = Some (ps, m_routes m).
Proof.
  intros Hpre Hm. induction Hpre as [|m' pre Hm' _ IH]; simpl.
  - by rewrite Hm.
  - by rewrite Hm'.
Qed.

Lemma some_matcher_none pathname ms :
  unmatched pathname ms → some_matcher pathname ms = None.
Proof.
  induction 1 as [|m ms Hm _ IH]; simpl; [done|]. by rewrite Hm.
Qed.

Lemma trim_path_nonempty path : trim_path path ≠ "".
Proof.
  unfold trim_path.
  destruct (String.eqb_spec (strip_trailing_slash (default "" path)) ""); done.
Qed.

(** C7: [match(path)] takes the first matcher, in the order of
    [this.matchers], whose pattern matches the pathname: its routes and
    the params extracted with it make the result, whatever matchers come
    after it in the list. *)
Theorem match_first_matcher_wins (r : Router) (path : option string)
    (pre post : list Matcher) (m : Matcher) (ps : Dict) :
  matchers r = Some (pre ++ m :: post) →
  unmatched (withoutQuery (trim_path path)) pre →
  extractParams (m_path m) (withoutQuery (trim_path path)) = Some ps →
  ∃ res, match_path r path = Ok res ∧
         mr_routes res = map (descriptor ps) (m_routes m) ∧
         mr_params res = ps ∧
         ∀ post', match_path (set_matchers (Some (pre ++ m :: post')) r) path = Ok res.
Proof.
  intros Hms Hpre Hm. unfold match_path. rewrite Hms. simpl.
  rewrite (some_matcher_first _ _ _ post _ Hpre Hm). simpl.
  eexists. split; [reflexivity|]. repeat split.
  intros post'. by rewrite (some_matcher_first _ _ _ post' _ Hpre Hm).
Qed.

Lemma start_transition_spec path m noop w :
  start_transition path m noop w =
    (length (heap w),
     mkWorld (mkRouter (nextId (router w) + 1) (state (router w)) (middleware (router w))
                (routes (router w)) (matchers (router w)))
             (heap w ++ [mkTransition (nextId (router w)) path (mr_pathname m) (mr_query m)
                           (mr_params m) (mr_routes m) noop
                           (if noop then Completed else Pending) None
                           (if noop then [] else middleware (router w))])).
Proof. reflexivity. Qed.

Lemma match_path_mapped r path ms :
  matchers r = Some ms →
  match_path r path =
    Ok (mkMatchResult
          (from_option (λ '(params, routes), map (descriptor params) routes) []
             (some_matcher (withoutQuery (trim_path path)) ms))
          (from_option fst ∅ (some_matcher (withoutQuery (trim_path path)) ms))
          (withoutQuery (trim_path path))
          (default ∅ (extractQuery (trim_path path)))).
Proof. intros Hms. unfold match_path. by rewrite Hms. Qed.

Lemma start_transition_allocates path m noop w :
  ∃ t, heap (start_transition path m noop w).2 !! (start_transition path m noop w).1 = Some t.
Proof.
  rewrite start_transition_spec. simpl.
  rewrite lookup_app_r by lia. rewrite Nat.sub_diag. by eexists.
Qed.

Ltac split_start_transition :=
  match goal with |- context [start_transition ?a ?b ?c ?d] =>
    let t := fresh "t" in let Ht := fresh "Ht" in
    destruct (start_transition_allocates a b c d) as [t Ht];
    destruct (start_transition a b c d)
  end.

Lemma dispatch_total (w : World) (path : option string) (ms : list Matcher) :
  matchers (router w) = Some ms →
  slot_allocated w →
  ∃ t w', dispatch path w = Ok (t, w') ∧ is_Some (heap w' !! t).
Proof.
  intros Hms Hslot. unfold dispatch. rewrite (match_path_mapped _ path ms Hms).
  destruct (activeTransition (state (router w))) as [l|] eqn:Hact.
  - destruct (Hslot l Hact) as [t Ht]. rewrite Ht.
    match goal with |- context [if ?c then _ else _] => destruct c end.
    + eauto.
    + split_start_transition. do 2 eexists. split; [reflexivity|]. by eexists.
  - match goal with |- context [if ?c then _ else _] => destruct c end;
      split_start_transition; do 2 eexists; (split; [reflexivity|]); by eexists.
Qed.

(** C9: on a router whose matcher list has been set by [map],
    [match(path)] returns a result for every path: the pathname is what
    [withoutQuery] leaves of the trimmed path, where the trim (one trailing
    slash dropped, empty replaced by "/") acts on the whole path with its
    query, so that the path trimmed is never empty and a path that ends in
    a slash loses it; the query is the decoded one or empty, and when no
    matcher matches the routes and params are empty; [dispatch(path)] then
    returns a transition. *)
Theorem match_total_on_unmatched (w : World) (path : option string) (ms : list Matcher) :
  matchers (router w) = Some ms →
  slot_allocated w →
  ∃ res, match_path (router w) path = Ok res ∧
         mr_pathname res = withoutQuery (trim_path path) ∧
         mr_query res = default ∅ (extractQuery (trim_path path)) ∧
         trim_path path ≠ "" ∧
         (∀ s, path = Some (s +:+ "/") → s ≠ "" → trim_path path = s) ∧
         (unmatched (withoutQuery (trim_path path)) ms →
            mr_routes res = [] ∧ mr_params res = ∅) ∧
         ∃ t w', dispatch path w = Ok (t, w') ∧ is_Some (heap w' !! t).
Proof.
  intros Hms Hslot. rewrite (match_path_mapped _ path ms Hms).
  eexists. split; [reflexivity|]. cbn [mr_pathname mr_query mr_routes mr_params].
  split; [done|]. split; [done|]. split; [apply trim_path_nonempty|]. split; [|split].
  - intros s -> Hs. unfold trim_path.
    change (default "" (Some (s +:+ "/"))) with (s +:+ "/").
    rewrite strip_trailing_slash_snoc. cbv zeta.
    by destruct (String.eqb_spec s "").
  - intros Hnone. by rewrite (some_matcher_none _ _ Hnone).
  - by apply (dispatch_total w path ms).
Qed.

Lemma cancel_pending l e w t :
  heap w !! l = Some t → t_status t = Pending →
  activeTransition (state (router w)) = Some l →
  cancel l (Some e) w =
    mkWorld (set_activeTransition None (router w))
      (<[l := mkTransition (t_id t) (t_path t) (t_pathname t) (t_query t)
                (t_params t) (t_routes t) (t_noop t)
                (if String.eqb (e_type e) TRANSITION_REDIRECTED
                 then Redirected else Cancelled)
                (Some e) (t_chain t)]> (heap w)).
Proof.
  intros Ht Hst Hact. unfold cancel. rewrite Ht, Hst. cbn [default].
  by rewrite bool_decide_eq_true_2.
Qed.

(** C1: while a transition is active, dispatching a path whose pathname
    is that of the active transition and whose query [isEqual] finds equal
    to its query returns the active transition itself and leaves the
    router and every transition object as they were. *)
Theorem dispatch_same_target_returns_active (w : World) (path : option string)
    (l : nat) (t : Transition) (m : MatchResult) :
  activeTransition (state (router w)) = Some l →
  heap w !! l = Some t →
  match_path (router w) path = Ok m →
  t_pathname t = mr_pathname m →
  isEqual (t_query t) (mr_query m) = true →
  dispatch path w = Ok (l, w).
Proof.
  intros Hact Ht Hm Hp Hq. unfold dispatch. rewrite Hm, Hact, Ht, Hq, Hp.
  by rewrite String.eqb_refl.
Qed.

(** C2: while a pending transition is active, dispatching a path whose
    pathname or query differs from its own rejects that transition with
    an error of type TRANSITION_REDIRECTED whose [nextPath] is the
    dispatched path, creates a new pending transition and puts it in the
    router's slot; if the slot held the only pending transition before,
    it does so afterwards. *)
Theorem dispatch_other_target_redirects (w : World) (path : option string)
    (l : nat) (t : Transition) (m : MatchResult) :
  activeTransition (state (router w)) = Some l →
  heap w !! l = Some t →
  t_status t = Pending →
  match_path (router w) path = Ok m →
  t_pathname t ≠ mr_pathname m ∨ isEqual (t_query t) (mr_query m) = false →
  ∃ w', dispatch path w = Ok (length (heap w), w') ∧
    heap w !! length (heap w) = None ∧
    (∃ told, heap w' !! l = Some told ∧
        t_status told = Redirected ∧
        t_error told = Some (mkTError TRANSITION_REDIRECTED TRANSITION_REDIRECTED path)) ∧
    (∃ tnew, heap w' !! length (heap w) = Some tnew ∧
        t_status tnew = Pending ∧ t_noop tnew = false ∧
        t_id tnew = nextId (router w) ∧ t_path tnew = path ∧
        t_pathname tnew = mr_pathname m ∧ t_query tnew = mr_query m ∧
        t_params tnew = mr_params m ∧ t_routes tnew = mr_routes m) ∧
    activeTransition (state (router w')) = Some (length (heap w)) ∧
    (single_pending w → single_pending w').
Proof.
  intros Hact Ht Hst Hm Hdiff. unfold dispatch. rewrite Hm, Hact, Ht.
  assert (String.eqb (t_pathname t) (mr_pathname m)
          && isEqual (t_query t) (mr_query m) = false) as ->.
  { destruct Hdiff as [Hp|Hq].
    - apply andb_false_iff. left. by apply String.eqb_neq.
    - rewrite Hq. apply andb_false_r. }
  rewrite (cancel_pending l _ w t Ht Hst Hact). cbn [e_type].
  rewrite String.eqb_refl, start_transition_spec.
  cbn [heap router nextId state middleware routes matchers set_activeTransition
       set_state committed activeTransition].
  rewrite length_insert.
  assert (l < length (heap w)) as Hl by (by eapply lookup_lt_Some).
  eexists. split; [reflexivity|]. cbn [heap router state activeTransition].
  split; [by apply lookup_ge_None_2|].
  split; [|split; [|split; [done|]]].
  - eexists. split.
    + rewrite lookup_app_l by (by rewrite length_insert).
      by apply list_lookup_insert_eq.
    + done.
  - eexists. split.
    + rewrite lookup_app_r by (by rewrite length_insert).
      by rewrite length_insert, Nat.sub_diag.
    + done.
  - intros Hsingle l' t'.
    cbn [heap router state activeTransition set_activeTransition set_state].
    intros Hl' Hpend.
    destruct (decide (l' < length (heap w))) as [Hlt|Hge].
    + rewrite lookup_app_l in Hl' by (by rewrite length_insert).
      destruct (decide (l' = l)) as [->|Hne].
      * rewrite list_lookup_insert_eq in Hl' by done.
        injection Hl' as <-. discriminate Hpend.
      * rewrite list_lookup_insert_ne in Hl' by done.
        specialize (Hsingle l' t' Hl' Hpend). congruence.
    + apply lookup_lt_Some in Hl'. rewrite length_app, length_insert in Hl'.
      simpl in Hl'. f_equal. lia.
Qed.

Lemma dispatch_noop_eq (w : World) (path : option string) (c : Committed) (m : MatchResult) :
  activeTransition (state (router w)) = None →
  committed (state (router w)) = Some c →
  match_path (router w) path = Ok m →
  c_pathname c = mr_pathname m →
  isEqual (c_query c) (mr_query m) = true →
  dispatch path w = Ok (start_transition path m true w).
Proof.
  intros Hact Hc Hm Hp Hq. unfold dispatch. rewrite Hm, Hact, Hc, Hq, Hp.
  by rewrite String.eqb_refl.
Qed.

(** C3: with no active transition, dispatching a path whose pathname is
    the committed one and whose query [isEqual] finds equal to the
    committed one returns a new transition that has the no-op flag,
    carries the routes, params, query and pathname of the match, and has
    no middleware to run. *)
Theorem dispatch_committed_target_is_noop (w : World) (path : option string)
    (c : Committed) (m : MatchResult) :
  activeTransition (state (router w)) = None →
  committed (state (router w)) = Some c →
  match_path (router w) path = Ok m →
  c_pathname c = mr_pathname m →
  isEqual (c_query c) (mr_query m) = true →
  ∃ w' t, dispatch path w = Ok (length (heap w), w') ∧
    heap w !! length (heap w) = None ∧
    heap w' !! length (heap w) = Some t ∧
    t_noop t = true ∧
    t_routes t = mr_routes m ∧ t_params t = mr_params m ∧
    t_query t = mr_query m ∧ t_pathname t = mr_pathname m ∧
    t_chain t = [].
Proof.
  intros Hact Hc Hm Hp Hq. rewrite (dispatch_noop_eq w path c m) by done.
  rewrite start_transition_spec. do 2 eexists. split; [reflexivity|].
  cbn [heap]. split; [by apply lookup_ge_None_2|]. split.
  - rewrite lookup_app_r by lia. by rewrite Nat.sub_diag.
  - done.
Qed.

(** C10: a dispatch that yields a no-op transition leaves [this.state]
    as it was: the slot still holds no transition, in particular not the
    one returned, and the committed data is the same; the middleware, the
    route tree and the matchers are untouched as well. *)
Theorem noop_dispatch_keeps_state (w : World) (path : option string)
    (c : Committed) (m : MatchResult) :
  activeTransition (state (router w)) = None →
  committed (state (router w)) = Some c →
  match_path (router w) path = Ok m →
  c_pathname c = mr_pathname m →
  isEqual (c_query c) (mr_query m) = true →
  ∃ l w', dispatch path w = Ok (l, w') ∧
    state (router w') = state (router w) ∧
    activeTransition (state (router w')) = None ∧
    activeTransition (state (router w')) ≠ Some l ∧
    committed (state (router w')) = Some c ∧
    middleware (router w') = middleware (router w) ∧
    routes (router w') = routes (router w) ∧
    matchers (router w') = matchers (router w) ∧
    (∀ l' t', heap w !! l' = Some t' → heap w' !! l' = Some t').
Proof.
  intros Hact Hc Hm Hp Hq. rewrite (dispatch_noop_eq w path c m) by done.
  rewrite start_transition_spec. do 2 eexists. split; [reflexivity|].
  cbn [router state middleware routes matchers heap].
  rewrite Hact, Hc. repeat split; try done.
  intros l' t' Hl'. by apply lookup_app_l_Some.
Qed.
End router_facts.

(** ** The theorems at work on the example routers *)

Section examples.
Import Example.
#[local] Existing Instances Reference.path_lib Reference.dash Reference.constants.

Lemma match_first_matcher_wins_witness :
  ∃ res, match_path mapped (Some "/posts/42") = Ok res ∧
         mr_routes res = map (descriptor {[ "id" := VStr "42" ]}) [posts; post] ∧
         mr_params res = {[ "id" := VStr "42" ]} ∧
         ∀ post', match_path
                    (set_matchers
                       (Some ([mkMatcher [posts] "posts" "/posts"] ++
                              mkMatcher [posts; post] "post" "/posts/:id" :: post'))
                       mapped)
                    (Some "/posts/42") = Ok res.
Proof.
  apply (match_first_matcher_wins mapped (Some "/posts/42")
           [mkMatcher [posts] "posts" "/posts"]
           [mkMatcher [fallback] "fallback" "/posts/:slug"]
           (mkMatcher [posts; post] "post" "/posts/:id")
           {[ "id" := VStr "42" ]}).
  - by vm_compute.
  - repeat constructor.
  - by vm_compute.
Defined.

Lemma match_total_on_unmatched_witness :
  match_path (router busy) (Some "/nowhere/") = Ok (mkMatchResult [] ∅ "/nowhere" ∅) ∧
  ∃ t w', dispatch (Some "/nowhere/") busy = Ok (t, w') ∧ is_Some (heap w' !! t).
Proof.
  edestruct (match_total_on_unmatched busy (Some "/nowhere/")
               [mkMatcher [posts] "posts" "/posts";
                mkMatcher [posts; post] "post" "/posts/:id";
                mkMatcher [fallback] "fallback" "/posts/:slug"])
    as (res & Hm & Hp & Hq & _ & _ & Hun & Hd).
  - by vm_compute.
  - intros l Hl. vm_compute in Hl. injection Hl as <-.
    eexists. vm_compute. reflexivity.
  - destruct Hun as [Hr Hps]; [repeat constructor|].
    split; [|exact Hd]. rewrite Hm. destruct res. simpl in *. subst.
    vm_compute. reflexivity.
Defined.

Lemma dispatch_same_target_witness :
  dispatch (Some "/posts/42?sort=desc/") busy = Ok (0, busy).
Proof.
  eapply (dispatch_same_target_returns_active busy (Some "/posts/42?sort=desc/") 0
            first_transition first_match).
  - vm_compute; reflexivity.
  - vm_compute; reflexivity.
  - vm_compute; reflexivity.
  - vm_compute; reflexivity.
  - vm_compute; reflexivity.
Defined.

Lemma dispatch_other_target_witness :
  ∃ w', dispatch (Some "/posts/43") busy = Ok (1, w') ∧
    heap busy !! 1 = None ∧
    (∃ told, heap w' !! 0 = Some told ∧
        t_status told = Redirected ∧
        t_error told =
          Some (mkTError TRANSITION_REDIRECTED TRANSITION_REDIRECTED (Some "/posts/43"))) ∧
    (∃ tnew, heap w' !! 1 = Some tnew ∧
        t_status tnew = Pending ∧ t_noop tnew = false ∧
        t_id tnew = 2%Z ∧ t_path tnew = Some "/posts/43" ∧
        t_pathname tnew = "/posts/43" ∧ t_query tnew = ∅ ∧
        t_params tnew = {[ "id" := VStr "43" ]} ∧
        t_routes tnew = map (descriptor {[ "id" := VStr "43" ]}) [posts; post]) ∧
    activeTransition (state (router w')) = Some 1 ∧
    (single_pending busy → single_pending w').
Proof.
  edestruct (dispatch_other_target_redirects busy (Some "/posts/43") 0 first_transition
               (mkMatchResult (map (descriptor {[ "id" := VStr "43" ]}) [posts; post])
                  {[ "id" := VStr "43" ]} "/posts/43" ∅))
    as (w' & Hd & Hfresh & Hold & Hnew & Hact & Hsingle).
  - vm_compute; reflexivity.
  - vm_compute; reflexivity.
  - vm_compute; reflexivity.
  - vm_compute; reflexivity.
  - left. vm_compute. discriminate.
  - change (length (heap busy)) with 1 in *.
    change (nextId (router busy)) with 2%Z in *.
    exists w'. repeat split; assumption.
Defined.

Lemma dispatch_committed_target_witness :
  ∃ w' t, dispatch first_path settled = Ok (1, w') ∧
    heap settled !! 1 = None ∧
    heap w' !! 1 = Some t ∧
    t_noop t = true ∧
    t_routes t = map (descriptor {[ "id" := VStr "42" ]}) [posts; post] ∧
    t_params t = {[ "id" := VStr "42" ]} ∧
    t_query t = {[ "sort" := VStr "desc" ]} ∧ t_pathname t = "/posts/42" ∧
    t_chain t = [].
Proof.
  edestruct (dispatch_committed_target_is_noop settled first_path first_committed
               first_match)
    as (w' & t & Hd).
  - vm_compute; reflexivity.
  - vm_compute; reflexivity.
  - vm_compute; reflexivity.
  - vm_compute; reflexivity.
  - vm_compute; reflexivity.
  - change (length (heap settled)) with 1 in *.
    exists w', t. exact Hd.
Defined.

Lemma noop_dispatch_keeps_state_witness :
  ∃ l w', dispatch (Some "/posts/42?sort=desc/") settled = Ok (l, w') ∧
    state (router w') = mkState (Some first_committed) None ∧
    activeTransition (state (router w')) ≠ Some l.
Proof.
  edestruct (noop_dispatch_keeps_state settled (Some "/posts/42?sort=desc/")
               first_committed first_match)
    as (l & w' & Hd & Hst & _ & Hl & _).
  - vm_compute; reflexivity.
  - vm_compute; reflexivity.
  - vm_compute; reflexivity.
  - vm_compute; reflexivity.
  - vm_compute; reflexivity.
  - exists l, w'. split; [exact Hd|]. split; [|exact Hl].
    rewrite Hst. vm_compute. reflexivity.
Defined.

(** Case analysis on the membership in a list that computes to a literal. *)
Ltac in_literal H :=
  vm_compute in H;
  repeat (apply elem_of_cons in H as [->|H]); [..|by apply elem_of_nil in H].

(** The routes of the example router have distinct paths, so [map] returns. *)
Example map_tree_succeeds : ∃ ms, compile_matchers tree = Done ms.
Proof.
  apply map_distinct_paths_succeeds. apply (bool_decide_unpack _). by vm_compute.
Qed.

Example map_tree_matchers :
  compile_matchers tree =
    Done [mkMatcher [posts] "posts" "/posts";
          mkMatcher [posts; post] "post" "/posts/:id";
          mkMatcher [fallback] "fallback" "/posts/:slug"].
Proof. by vm_compute. Qed.

(** Two named routes at one path make [map] throw, with both names in the
    message. *)
Example map_named_duplicates_throw :
  ∃ l1 b1 l2 b2 l3 ms,
    branches [first_a; second_a] [] = l1 ++ b1 :: l2 ++ b2 :: l3 ∧
    concrete b1 = true ∧ concrete b2 = true ∧
    branch_path b1 = branch_path b2 ∧
    compile_matchers [first_a; second_a] =
      Thrown (Error (dupe_message (leaf_name b1) (leaf_name b2) (branch_path b2))) ms.
Proof.
  apply map_duplicate_paths_throw.
  - intros b Hb. in_literal Hb; by vm_compute.
  - intros Hnd. apply (bool_decide_pack _) in Hnd. by vm_compute in Hnd.
Qed.

Example map_named_duplicates_message :
  compile_matchers [first_a; second_a] =
    Thrown (Error "Routes a and b have the same url path '/a'")
           [mkMatcher [first_a] "a" "/a"; mkMatcher [second_a] "b" "/a"].
Proof. by vm_compute. Qed.

(** The abstract [layout] is aliased to the matcher of its index route. *)
Example map_layout_alias :
  compile_matchers [layout] =
    Done [mkMatcher [layout; index] "index" "/"; mkMatcher [layout; index] "layout" "/"].
Proof. by vm_compute. Qed.

Example map_layout_alias_present ms :
  compile_matchers [layout] = Done ms →
  mkMatcher [layout; index] "layout" "/" ∈ ms.
Proof.
  intros Hms.
  apply (map_alias_of_last_abstract [layout] ms [] [layout] [] [layout; index]);
    try done.
  - intros b Hb. in_literal Hb; by vm_compute.
  - intros b Hb. by apply elem_of_nil in Hb.
  - vm_compute. right. left.
Qed.

(** C5: the duplicate check misses a first route whose name is the empty
    string.  Both routes below are concrete and have the path "/a", yet
    [map] returns normally with one matcher for each instead of throwing. *)
Theorem map_misses_duplicate_after_empty_name :
  branch_path [unnamed] = branch_path [named] ∧
  is_abstract unnamed = false ∧ is_abstract named = false ∧
  compile_matchers [unnamed; named] =
    Done [mkMatcher [unnamed] "" "/a"; mkMatcher [named] "b" "/a"].
Proof. repeat split; vm_compute; reflexivity. Qed.

(** C6: of two abstract routes with the same path only the one recorded
    last is given an alias.  [app] and [sec] are abstract with path "/",
    the concrete [home] has that path too; the matcher list gets an entry
    named "sec" next to the one of "home", and none named "app". *)
Theorem map_drops_alias_of_shadowed_abstract :
  is_abstract app = true ∧ branch_path [app] = "/" ∧
  is_abstract sec = true ∧ branch_path [app; sec] = "/" ∧
  is_abstract home = false ∧ branch_path [app; sec; home] = "/" ∧
  compile_matchers [app] =
    Done [mkMatcher [app; sec; home] "home" "/"; mkMatcher [app; sec; home] "sec" "/"].
Proof. repeat split; vm_compute; reflexivity. Qed.
End examples.

(** ** Further properties of the branch path *)

Lemma fold_concat_absolute pre r post memo :
  leading_slash (r_path r) = true →
  fold_left concat_step (pre ++ r :: post) memo = fold_left concat_step (r :: post) "".
Proof.
  intros Hr. rewrite fold_left_app. simpl. f_equal.
  unfold concat_step. by rewrite Hr.
Qed.

(** X1: a route whose own path starts with a slash cuts the branch path off
    from its ancestors: the path of the branch is the path of the part that
    starts at the last such route. *)
Theorem branch_path_absolute_override (pre post : list Route) (r : Route) :
  leading_slash (r_path r) = true →
  branch_path (pre ++ r :: post) = branch_path (r :: post).
Proof.
  intros Hr. unfold branch_path. by rewrite (fold_concat_absolute pre r post "" Hr).
Qed.

Lemma concat_step_empty_path memo r : r_path r = "" → concat_step memo r = memo.
Proof.
  intros Hr. unfold concat_step. rewrite Hr. simpl. apply strip_trailing_slash_snoc.
Qed.

(** X2: a route with the empty path has the branch path of its parent. *)
Theorem branch_path_index_child (b : list Route) (r : Route) :
  r_path r = "" → branch_path (b ++ [r]) = branch_path b.
Proof.
  intros Hr. unfold branch_path. rewrite fold_left_app. simpl.
  by rewrite concat_step_empty_path.
Qed.

(** ** What [eachBranch] enumerates *)

Lemma is_chain_nonempty roots b : is_chain roots b → b ≠ [].
Proof. by destruct 1. Qed.

Lemma branches_route_chain route :
  ∀ memo b, b ∈ branches_route memo route ↔
    b = memo ++ [route] ∨ ∃ c, b = memo ++ route :: c ∧ is_chain (r_routes route) c.
Proof.
  induction route as [n p o rs IH] using Route_tree_ind. intros memo b.
  simpl. rewrite elem_of_cons. rewrite Forall_forall in IH. split.
  - intros [->|Hin]; [by left|]. right.
    apply list_elem_of_In, in_flat_map in Hin as (child & Hchild & Hb).
    apply list_elem_of_In in Hchild, Hb.
    apply (IH child Hchild) in Hb as [->|(c & -> & Hc)].
    + exists [child]. split; [by rewrite <- app_assoc|]. by constructor.
    + exists (child :: c). split; [by rewrite <- app_assoc|]. by constructor.
  - intros [->|(c & -> & Hc)]; [by left|]. right.
    apply list_elem_of_In, in_flat_map.
    inversion Hc as [roots child Hchild|roots child c' Hchild Hc']; subst.
    + exists child. split; [by apply list_elem_of_In|].
      apply list_elem_of_In, (IH child Hchild). left. by rewrite <- app_assoc.
    + exists child. split; [by apply list_elem_of_In|].
      apply list_elem_of_In, (IH child Hchild). right.
      exists c'. split; [by rewrite <- app_assoc|done].
Qed.

Lemma branches_route_length route memo :
  length (branches_route memo route) = route_size route.
Proof.
  revert memo. induction route as [n p o rs IH] using Route_tree_ind. intros memo.
  simpl. f_equal. generalize (memo ++ [mkRoute n p o rs]). intros memo'.
  induction IH as [|child rs Hchild _ IHrs]; simpl; [done|].
  by rewrite length_app, Hchild, IHrs.
Qed.

Lemma branches_chain tree memo b :
  b ∈ branches tree memo ↔ ∃ c, b = memo ++ c ∧ is_chain tree c.
Proof.
  unfold branches. split.
  - intros Hin. apply list_elem_of_In, in_flat_map in Hin as (r & Hr & Hb).
    apply list_elem_of_In in Hr, Hb.
    apply branches_route_chain in Hb as [->|(c & -> & Hc)].
    + exists [r]. split; [done|]. by constructor.
    + exists (r :: c). split; [done|]. by constructor.
  - intros (c & -> & Hc). apply list_elem_of_In, in_flat_map.
    inversion Hc as [roots r Hr|roots r c' Hr Hc']; subst.
    + exists r. split; [by apply list_elem_of_In|].
      apply list_elem_of_In, branches_route_chain. by left.
    + exists r. split; [by apply list_elem_of_In|].
      apply list_elem_of_In, branches_route_chain. right. by exists c'.
Qed.

(** X3: the branches handed to the callback of [eachBranch] are exactly the
    chains that start at a top-level route and go from a route to one of
    its children, each after the [memo] the traversal started with; there
    is one branch for each route node of the tree. *)
Theorem branches_are_chains (tree memo : list Route) :
  (∀ (S : Type) (fn : list Route → S → Outcome S) (s : S),
     eachBranch fn tree memo s = run_branches fn (branches tree memo) s) ∧
  (∀ b, b ∈ branches tree memo ↔ ∃ c, b = memo ++ c ∧ is_chain tree c) ∧
  length (branches tree memo) = tree_size tree.
Proof.
  split; [intros S fn s; apply eachBranch_run|]. split; [apply branches_chain|].
  unfold branches. induction tree as [|r rs IH]; simpl; [done|].
  by rewrite length_app, branches_route_length, IH.
Qed.

Lemma branches_length tree memo : length (branches tree memo) = tree_size tree.
Proof.
  unfold branches. induction tree as [|r rs IH]; simpl; [done|].
  by rewrite length_app, branches_route_length, IH.
Qed.

Lemma is_chain_snoc roots b r c :
  is_chain roots b → last b = Some r → c ∈ r_routes r → is_chain roots (b ++ [c]).
Proof.
  induction 1 as [roots r0 Hr0|roots r0 b Hr0 Hb IH]; intros Hlast Hc.
  - injection Hlast as ->. simpl. apply is_chain_cons; [done|]. by constructor.
  - simpl. apply is_chain_cons; [done|]. apply IH; [|done].
    destruct b; [by apply is_chain_nonempty in Hb|done].
Qed.

(** ** When [map] throws *)

Lemma traversal_thrown bs : ∀ pre st e st',
  (∀ b, b ∈ bs → is_Some (last b)) →
  (∀ p n, ms_dupes st !! p = Some n →
     ∃ l1 b1 l2, pre = l1 ++ b1 :: l2 ∧ concrete b1 = true ∧
                 branch_path b1 = p ∧ leaf_name b1 = n) →
  run_branches register_branch bs st = Thrown e st' →
  ∃ l1 b1 l2 b2 l3 k1,
    pre ++ bs = l1 ++ b1 :: l2 ++ b2 :: l3 ∧ bs = k1 ++ b2 :: l3 ∧
    concrete b1 = true ∧ concrete b2 = true ∧
    branch_path b1 = branch_path b2 ∧ leaf_name b1 ≠ "" ∧
    e = Error (dupe_message (leaf_name b1) (leaf_name b2) (branch_path b2)) ∧
    ms_matchers st' =
      ms_matchers st ++ (matcher_of <$> filter concrete k1) ++ [matcher_of b2].
Proof.
  induction bs as [|b bs IH]; intros pre st e st' Hlast Hinv Hrun; [done|].
  pose proof (concrete_not_abstract b (Hlast b (list_elem_of_here _ _))) as Hc.
  assert (∀ b', b' ∈ bs → is_Some (last b')) as Hlast'
    by (intros b' Hb'; apply Hlast; by right).
  assert (pre ++ b :: bs = (pre ++ [b]) ++ bs) as Hsplit by (by rewrite <- app_assoc).
  simpl in Hrun. destruct (abstract_branch b) eqn:Ha; simpl in Hc.
  - rewrite register_branch_abstract in Hrun by done. simpl in Hrun.
    apply (IH (pre ++ [b])) in Hrun
      as (l1 & b1 & l2 & b2 & l3 & k1 & Hall & Hbs & Hc1 & Hc2 & Hp & Hn & He & Hm);
      [|done|].
    + exists l1, b1, l2, b2, l3, (b :: k1). rewrite Hsplit.
      split; [done|]. split; [by rewrite Hbs|].
      repeat (split; [done|]). simpl in Hm. rewrite Hm.
      by rewrite filter_cons_False by (rewrite Hc; auto).
    + simpl. intros p n Hpn. destruct (Hinv p n Hpn) as (l1 & b1 & l2 & -> & ?).
      exists l1, b1, (l2 ++ [b]). split; [by rewrite <- app_assoc|done].
  - destruct (dupe_at (ms_dupes st) (branch_path b)) eqn:Hdup.
    + rewrite register_branch_dupe in Hrun by done. injection Hrun as <- <-.
      unfold dupe_at in Hdup.
      destruct (ms_dupes st !! branch_path b) as [n|] eqn:Hlook; [|done].
      destruct (Hinv _ _ Hlook) as (l1 & b1 & l2 & -> & Hc1 & Hp & Hn).
      exists l1, b1, l2, b, bs, []. rewrite <- app_assoc. simpl.
      repeat (split; [done|]). split; [|by rewrite Hn].
      rewrite Hn. simpl in Hdup. by destruct (String.eqb_spec n "").
    + rewrite register_branch_fresh in Hrun by done. simpl in Hrun.
      apply (IH (pre ++ [b])) in Hrun
        as (l1 & b1 & l2 & b2 & l3 & k1 & Hall & Hbs & Hc1 & Hc2 & Hp & Hn & He & Hm);
        [|done|].
      * exists l1, b1, l2, b2, l3, (b :: k1). rewrite Hsplit.
        split; [done|]. split; [by rewrite Hbs|].
        repeat (split; [done|]). simpl in Hm. rewrite Hm.
        rewrite filter_cons_True by (by rewrite Hc).
        by rewrite <- app_assoc.
      * simpl. intros p n Hpn.
        destruct (decide (branch_path b = p)) as [<-|Hne].
        -- rewrite lookup_insert_eq in Hpn. injection Hpn as <-.
           exists pre, b, []. by rewrite Hc.
        -- rewrite lookup_insert_ne in Hpn by done.
           destruct (Hinv p n Hpn) as (l1 & b1 & l2 & -> & ?).
           exists l1, b1, (l2 ++ [b]). split; [by rewrite <- app_assoc|done].
Qed.

(** X4: the only exception [map] throws on a route tree is the duplicate
    error, and it is never a false alarm: the message names two different
    concrete branches of the tree that have the same path, the second
    being the branch at which the traversal stopped.  The matcher list left
    behind holds the concrete branches up to and including that one, and no
    alias. *)
Theorem map_throws_only_on_duplicate (tree : list Route) (e : JSError) (ms : list Matcher) :
  compile_matchers tree = Thrown e ms →
  ∃ l1 b1 l2 b2 l3,
    branches tree [] = l1 ++ b1 :: l2 ++ b2 :: l3 ∧
    concrete b1 = true ∧ concrete b2 = true ∧
    branch_path b1 = branch_path b2 ∧
    e = Error (dupe_message (leaf_name b1) (leaf_name b2) (branch_path b2)) ∧
    ms = (matcher_of <$> filter concrete (l1 ++ b1 :: l2)) ++ [matcher_of b2].
Proof.
  unfold compile_matchers. rewrite eachBranch_run.
  destruct (run_branches register_branch (branches tree []) (mkMapState [] ∅ []))
    as [st|e' st] eqn:Hrun.
  - apply traversal_done in Hrun as (Hm & Hd & Ha). simpl in *.
    rewrite Hm, Hd, Ha.
    by rewrite add_aliases_base by apply recorded_matcher_found.
  - intros [= -> <-].
    apply (traversal_thrown _ []) in Hrun
      as (l1 & b1 & l2 & b2 & l3 & k1 & Hall & Hbs & Hc1 & Hc2 & Hp & _ & He & Hm).
    + exists l1, b1, l2, b2, l3. simpl in *. repeat (split; [done|]).
      rewrite Hm. do 3 f_equal.
      rewrite Hbs in Hall. by apply (app_inv_tail (b2 :: l3)); rewrite <- !app_assoc.
    + intros b. apply branches_last.
    + simpl. intros p n Hpn. by rewrite lookup_empty in Hpn.
Qed.

(** ** The matcher list of a [map] that returns *)

Lemma NoDup_fmap_eq {A B} (f : A → B) (l : list A) x y :
  NoDup (f <$> l) → x ∈ l → y ∈ l → f x = f y → x = y.
Proof.
  induction l as [|a l IH]; intros Hnd Hx Hy Hf; [by apply elem_of_nil in Hx|].
  rewrite fmap_cons in Hnd. apply NoDup_cons in Hnd as [Ha Hnd].
  apply elem_of_cons in Hx as [->|Hx]; apply elem_of_cons in Hy as [->|Hy]; auto.
  - exfalso. apply Ha. rewrite Hf. by apply list_elem_of_fmap_2.
  - exfalso. apply Ha. rewrite <- Hf. by apply list_elem_of_fmap_2.
Qed.

Lemma map_done_distinct_paths tree ms :
  compile_matchers tree = Done ms →
  (∀ b, b ∈ filter concrete (branches tree []) → leaf_name b ≠ "") →
  NoDup (branch_path <$> filter concrete (branches tree [])).
Proof.
  intros Hms Hnames.
  destruct (decide (NoDup (branch_path <$> filter concrete (branches tree []))))
    as [Hnd|Hdup]; [done|].
  destruct (map_duplicate_paths_throw tree Hnames Hdup)
    as (? & ? & ? & ? & ? & ? & _ & _ & _ & _ & Hthrow).
  by rewrite Hms in Hthrow.
Qed.

(** X5: when [map] returns and no concrete branch ends in a route with the
    empty name, entries of the matcher list that have the same path have
    the same routes: an alias and the matcher it forwards to resolve to one
    chain, and no two concrete matchers share a path. *)
Theorem map_same_path_same_routes (tree : list Route) (ms : list Matcher)
    (m1 m2 : Matcher) :
  compile_matchers tree = Done ms →
  (∀ b, b ∈ filter concrete (branches tree []) → leaf_name b ≠ "") →
  m1 ∈ ms → m2 ∈ ms → m_path m1 = m_path m2 →
  m_routes m1 = m_routes m2.
Proof.
  intros Hms Hnames H1 H2 Hpath.
  pose proof (map_done_distinct_paths tree ms Hms Hnames) as Hnd.
  destruct (compiled_matcher_branch tree ms m1 Hms H1) as (Hin1 & Hc1 & Hp1).
  destruct (compiled_matcher_branch tree ms m2 Hms H2) as (Hin2 & Hc2 & Hp2).
  apply (NoDup_fmap_eq branch_path (filter concrete (branches tree []))); [done| | |].
  - apply list_elem_of_filter. split; [by apply Is_true_true|done].
  - apply list_elem_of_filter. split; [by apply Is_true_true|done].
  - by rewrite <- Hp1, <- Hp2.
Qed.

Lemma obj_set_elem k v k' v' o :
  (k', v') ∈ obj_set k v o → (k', v') = (k, v) ∨ (k', v') ∈ o.
Proof.
  induction o as [|[k0 v0] o IH]; simpl.
  - intros Hin. apply list_elem_of_singleton in Hin. by left.
  - destruct (String.eqb_spec k0 k) as [->|Hne]; intros Hin.
    + apply elem_of_cons in Hin as [Heq|Hin]; [by left|]. right. by right.
    + apply elem_of_cons in Hin as [Heq|Hin]; [right; rewrite Heq; by left|].
      destruct (IH Hin) as [Heq|Ho]; [by left|]. right. by right.
Qed.

Lemma obj_set_length k v o : (length (obj_set k v o) ≤ S (length o))%nat.
Proof.
  induction o as [|[k0 v0] o IH]; simpl; [lia|].
  destruct (String.eqb k0 k); simpl; lia.
Qed.

Lemma record_abstracts_elem o bs p n :
  (p, n) ∈ record_abstracts o bs →
  (p, n) ∈ o ∨ ∃ b, b ∈ bs ∧ branch_path b = p ∧ leaf_name b = n.
Proof.
  induction bs as [|b bs IH] using rev_ind; [by left|].
  unfold record_abstracts. rewrite foldl_snoc. intros Hin.
  apply obj_set_elem in Hin as [[= -> ->]|Hin].
  - right. exists b. split; [|done]. apply elem_of_app. right. by left.
  - destruct (IH Hin) as [Ho|(b' & Hb' & Hp & Hn)]; [by left|].
    right. exists b'. split; [|done]. apply elem_of_app. by left.
Qed.

Lemma record_abstracts_length o bs :
  (length (record_abstracts o bs) ≤ length o + length bs)%nat.
Proof.
  induction bs as [|b bs IH] using rev_ind; [simpl; lia|].
  unfold record_abstracts. rewrite foldl_snoc, length_app.
  fold (record_abstracts o bs). change (length [b]) with 1.
  pose proof (obj_set_length (branch_path b) (leaf_name b) (record_abstracts o bs)).
  lia.
Qed.

Lemma length_omap_le {A B} (f : A → option B) l : (length (omap f l) ≤ length l)%nat.
Proof.
  induction l as [|a l IH]; [done|].
  change (omap f (a :: l))
    with (match f a with Some y => y :: omap f l | None => omap f l end).
  destruct (f a); simpl length; lia.
Qed.

Lemma concrete_abstract_partition bs :
  (∀ b, b ∈ bs → is_Some (last b)) →
  (length (filter concrete bs) + length (filter abstract_branch bs) = length bs)%nat.
Proof.
  induction bs as [|b bs IH]; intros Hlast; [done|].
  pose proof (concrete_not_abstract b (Hlast b (list_elem_of_here _ _))) as Hc.
  assert (length (filter concrete bs) + length (filter abstract_branch bs) = length bs)%nat
    as IH' by (apply IH; intros b' Hb'; apply Hlast; by right).
  destruct (abstract_branch b) eqn:Ha; simpl in Hc.
  - rewrite filter_cons_False by (rewrite Hc; auto).
    rewrite (filter_cons_True (λ b, abstract_branch b)) by (by rewrite Ha).
    simpl. lia.
  - rewrite filter_cons_True by (by rewrite Hc).
    rewrite (filter_cons_False (λ b, abstract_branch b)) by (rewrite Ha; auto).
    simpl. lia.
Qed.

(** X6: the matcher list of a [map] that returns starts with one matcher
    for each concrete branch, in the order of the traversal; what follows
    are aliases, each with the name and the path of an abstract branch of
    the tree and the routes of a concrete matcher at that path.  There are
    never more entries than route nodes. *)
Theorem map_matchers_layout (tree : list Route) (ms : list Matcher) :
  compile_matchers tree = Done ms →
  ∃ aliases,
    ms = (matcher_of <$> filter concrete (branches tree [])) ++ aliases ∧
    (∀ a, a ∈ aliases →
       ∃ b c, b ∈ branches tree [] ∧ abstract_branch b = true ∧
              c ∈ branches tree [] ∧ concrete c = true ∧
              m_name a = leaf_name b ∧ m_path a = branch_path b ∧
              branch_path c = branch_path b ∧ m_routes a = c) ∧
    (length ms ≤ tree_size tree)%nat.
Proof.
  intros Hms. pose proof (compile_matchers_done _ _ Hms) as Hshape.
  eexists. split; [exact Hshape|]. split.
  - intros a Ha. apply list_elem_of_omap in Ha as ([p n] & Hentry & Halias).
    apply alias_of_Some in Halias as (_ & Hpath & Hname & m0 & Hm0 & Hpath0 & Hroutes).
    simpl in *.
    apply record_abstracts_elem in Hentry as [Hnil|(b & Hb & Hp & Hn)];
      [by apply elem_of_nil in Hnil|].
    apply list_elem_of_filter in Hb as [Hab Hb].
    apply list_elem_of_fmap in Hm0 as (c & -> & Hc).
    apply list_elem_of_filter in Hc as [Hcc Hc]. simpl in *.
    exists b, c. repeat split; try done; try (by apply Is_true_true); congruence.
  - rewrite Hshape, length_app, length_fmap.
    pose proof (length_omap_le
      (alias_of (record_dupes ∅ (filter concrete (branches tree [])))
                (matcher_of <$> filter concrete (branches tree [])))
      (record_abstracts [] (filter abstract_branch (branches tree [])))) as H1.
    pose proof (record_abstracts_length [] (filter abstract_branch (branches tree []))) as H2.
    pose proof (concrete_abstract_partition (branches tree [])
                  (λ b, branches_last tree [] b)) as H3.
    rewrite <- (branches_length tree []). simpl in H2. lia.
Qed.

(** X7: index forwarding.  When [map] returns and no concrete branch ends
    in a route with the empty name: an abstract branch with a concrete
    child whose path is empty, and with no later abstract branch at its
    path, has an alias under its own name that carries the routes of the
    branch of that child. *)
Theorem map_aliases_index_child (tree : list Route) (ms : list Matcher)
    (l1 l2 : list (list Route)) (b : list Route) (r c : Route) :
  compile_matchers tree = Done ms →
  (∀ b', b' ∈ filter concrete (branches tree []) → leaf_name b' ≠ "") →
  filter abstract_branch (branches tree []) = l1 ++ b :: l2 →
  (∀ b', b' ∈ l2 → branch_path b' ≠ branch_path b) →
  last b = Some r → c ∈ r_routes r → r_path c = "" → is_abstract c = false →
  mkMatcher (b ++ [c]) (r_name r) (branch_path b) ∈ ms.
Proof.
  intros Hms Hnames Habs Hlater Hlast Hc Hpath Hconc.
  assert (b ∈ branches tree []) as Hb.
  { assert (b ∈ filter abstract_branch (branches tree [])) as Hin
      by (rewrite Habs; apply elem_of_app; right; by left).
    by apply list_elem_of_filter in Hin as [_ Hin]. }
  replace (r_name r) with (leaf_name b) by (unfold leaf_name; by rewrite Hlast).
  apply (map_alias_of_last_abstract tree ms l1 b l2 (b ++ [c])); try done.
  - apply branches_chain. apply branches_chain in Hb as (chain & Hchain & His).
    simpl in Hchain. subst chain. exists (b ++ [c]). split; [done|].
    by apply (is_chain_snoc _ _ r).
  - unfold concrete. rewrite last_snoc. simpl. by rewrite Hconc.
  - unfold branch_path. rewrite fold_left_app. simpl.
    by rewrite concat_step_empty_path.
Qed.

(** ** Further properties of [match], [isActive] and [dispatch] *)

Section more_router_facts.
Context `{PathLib} `{Dash} `{Constants}.

Lemma trim_path_trailing_slash s :
  (∀ s', s ≠ s' +:+ "/") → trim_path (Some (s +:+ "/")) = trim_path (Some s).
Proof.
  intros Hs. unfold trim_path.
  change (default "" (Some (s +:+ "/"))) with (s +:+ "/").
  change (default "" (Some s)) with s.
  by rewrite strip_trailing_slash_snoc, strip_trailing_slash_other.
Qed.

(** X8: [match] does not see one trailing slash: a path and the same path
    with a slash appended give the same result, provided the path does not
    itself end in a slash; a missing path is matched like "/". *)
Theorem match_ignores_trailing_slash (r : Router) (s : string) :
  (∀ s', s ≠ s' +:+ "/") →
  match_path r (Some (s +:+ "/")) = match_path r (Some s) ∧
  match_path r None = match_path r (Some "/").
Proof.
  intros Hs. split; [|done].
  unfold match_path. by rewrite (trim_path_trailing_slash s Hs).
Qed.

Lemma some_matcher_Some pathname ms ps rs :
  some_matcher pathname ms = Some (ps, rs) →
  ∃ m, m ∈ ms ∧ extractParams (m_path m) pathname = Some ps ∧ rs = m_routes m.
Proof.
  induction ms as [|m ms IH]; simpl; [done|].
  destruct (extractParams (m_path m) pathname) as [ps'|] eqn:Hm.
  - intros [= <- <-]. exists m. split; [by left|done].
  - intros Hrest. destruct (IH Hrest) as (m' & Hin & Hm' & Hrs).
    exists m'. split; [by right|done].
Qed.

Lemma some_matcher_None pathname ms :
  some_matcher pathname ms = None → unmatched pathname ms.
Proof.
  induction ms as [|m ms IH]; simpl; [constructor|].
  destruct (extractParams (m_path m) pathname) eqn:Hm; [done|].
  intros Hrest. constructor; [done|by apply IH].
Qed.

(** X9: on a router whose matchers come from a [map] that returned, the
    routes of a match are either empty, when no matcher matches, or the
    descriptors of a concrete branch of the tree whose own path pattern
    matched the pathname with the params of the result; a branch that ends
    in an abstract route is never the result. *)
Theorem match_resolves_to_concrete_branch (tree : list Route) (ms : list Matcher)
    (r : Router) (path : option string) :
  compile_matchers tree = Done ms →
  matchers r = Some ms →
  ∃ res, match_path r path = Ok res ∧
    ((unmatched (mr_pathname res) ms ∧ mr_routes res = [] ∧ mr_params res = ∅) ∨
     (∃ b, b ∈ branches tree [] ∧ concrete b = true ∧
           extractParams (branch_path b) (mr_pathname res) = Some (mr_params res) ∧
           mr_routes res = map (descriptor (mr_params res)) b)).
Proof.
  intros Hms Hr. rewrite (match_path_mapped r path ms Hr).
  eexists. split; [reflexivity|]. cbn [mr_pathname mr_routes mr_params].
  destruct (some_matcher (withoutQuery (trim_path path)) ms) as [[ps rs]|] eqn:Hfound.
  - right. apply some_matcher_Some in Hfound as (m & Hin & Hm & ->).
    destruct (compiled_matcher_branch tree ms m Hms Hin) as (Hb & Hc & Hp).
    exists (m_routes m). simpl. by rewrite <- Hp.
  - left. apply some_matcher_None in Hfound. by repeat split.
Qed.

(** X10: [isActive] is monotone in what is asked: when a name is active
    with some params and query, it is active with any part of them, and in
    particular with none. *)
Theorem isActive_monotone (r : Router) (name : string) (params query params' query' : Dict) :
  isActive r name (Some params) (Some query) = true →
  params' ⊆ params → query' ⊆ query →
  isActive r name (Some params') (Some query') = true ∧
  isActive r name None None = true.
Proof.
  unfold isActive. rewrite !andb_true_iff, !every_key_subset.
  intros [[Hname Hp] Hq] Hps Hqs. split.
  - repeat split; [done| |].
    + intros k v Hk. apply Hp. by eapply lookup_weaken.
    + intros k v Hk. apply Hq. by eapply lookup_weaken.
  - repeat split; [done| |]; intros k v Hk; simpl in Hk; by rewrite lookup_empty in Hk.
Qed.

(** X11: a supplied param or query key that the committed state lacks makes
    [isActive] false, unless the value supplied for it is what the read of
    a missing key yields: [undefined], or the member of [Object.prototype]
    of that name. *)
Theorem isActive_missing_key (r : Router) (name : string) (params query : Dict)
    (k : string) (v : JSVal) :
  v ≠ inherited k →
  (params !! k = Some v ∧ activeParams r !! k = None) ∨
  (query !! k = Some v ∧ activeQuery r !! k = None) →
  isActive r name (Some params) (Some query) = false.
Proof.
  intros Hv Hk. apply not_true_is_false. unfold isActive.
  rewrite !andb_true_iff, !every_key_subset. intros [[_ Hp] Hq].
  destruct Hk as [[Hk Hnone]|[Hk Hnone]].
  - specialize (Hp k v Hk). rewrite (js_get_missing _ _ Hnone) in Hp. congruence.
  - specialize (Hq k v Hk). rewrite (js_get_missing _ _ Hnone) in Hq. congruence.
Qed.

(** X12: after [destroy] nothing is active and no transition is in the
    slot, while the matchers and the middleware stay. *)
Theorem destroy_clears_state (w : World) (name : string) (params query : option Dict) :
  isActive (router (destroy w)) name params query = false ∧
  state (router (destroy w)) = mkState None None ∧
  matchers (router (destroy w)) = matchers (router w) ∧
  middleware (router (destroy w)) = middleware (router w).
Proof.
  assert (∀ l e, matchers (router (cancel l e w)) = matchers (router w) ∧
                 middleware (router (cancel l e w)) = middleware (router w)) as Hcancel.
  { intros l e. unfold cancel. destruct (heap w !! l) as [t|]; [|done].
    destruct (t_status t); try done. simpl. by case_bool_decide. }
  unfold destroy. split; [done|]. split; [done|]. simpl.
  destruct (activeTransition (state (router w))); [apply Hcancel|done].
Qed.
End more_router_facts.

(** ** Further properties of [dispatch] *)

Section dispatch_facts.
Context `{PathLib} `{Dash} `{Constants}.

(** What [cancel] leaves alone: everything of the router but the slot, the
    number of transition objects and their ids. *)
Lemma cancel_frame l e w :
  nextId (router (cancel l e w)) = nextId (router w) ∧
  committed (state (router (cancel l e w))) = committed (state (router w)) ∧
  middleware (router (cancel l e w)) = middleware (router w) ∧
  routes (router (cancel l e w)) = routes (router w) ∧
  matchers (router (cancel l e w)) = matchers (router w) ∧
  length (heap (cancel l e w)) = length (heap w) ∧
  (∀ l' t', heap (cancel l e w) !! l' = Some t' →
            ∃ t, heap w !! l' = Some t ∧ t_id t' = t_id t).
Proof.
  unfold cancel. destruct (heap w !! l) as [t|] eqn:Ht; [|by repeat split; eauto].
  destruct (t_status t); try (by repeat split; eauto).
  simpl. repeat split; try (by case_bool_decide).
  - apply length_insert.
  - intros l' t' Hl'. destruct (decide (l' = l)) as [->|Hne].
    + rewrite list_lookup_insert_eq in Hl' by (by eapply lookup_lt_Some).
      injection Hl' as <-. eauto.
    + rewrite list_lookup_insert_ne in Hl' by done. eauto.
Qed.

(** The three ways [dispatch] returns. *)
Lemma dispatch_cases path w t w' :
  dispatch path w = Ok (t, w') →
  ∃ m, match_path (router w) path = Ok m ∧
    ((activeTransition (state (router w)) = Some t ∧ w' = w) ∨
     (activeTransition (state (router w)) = None ∧
      (t, w') = start_transition path m true w) ∨
     (∃ w1 w2, (w1 = w ∨ ∃ l e, w1 = cancel l e w) ∧
        (t, w2) = start_transition path m false w1 ∧
        w' = mkWorld (set_activeTransition (Some t) (router w2)) (heap w2))).
Proof.
  unfold dispatch. destruct (match_path (router w) path) as [m|e]; [|done].
  intros Hd. exists m. split; [done|].
  destruct (activeTransition (state (router w))) as [l|] eqn:Hact.
  - destruct (heap w !! l) as [tr|]; [|done].
    destruct (String.eqb (t_pathname tr) (mr_pathname m)
              && isEqual (t_query tr) (mr_query m)).
    + injection Hd as <- <-. by left.
    + right. right.
      match type of Hd with context [cancel l ?e w] =>
        destruct (start_transition path m false (cancel l e w)) as [t1 w2] eqn:Hst;
        injection Hd as <- <-; exists (cancel l e w), w2
      end.
      eauto 10.
  - destruct (match committed (state (router w)) with
              | Some c => _ | None => false end).
    + right. left. split; [done|]. congruence.
    + right. right. destruct (start_transition path m false w) as [t1 w2] eqn:Hst.
      injection Hd as <- <-. exists w, w2. eauto.
Qed.

(** X13: with no transition in the slot and a target that is not the
    committed one (another pathname, a query [isEqual] rejects, or nothing
    committed yet), [dispatch] creates a transition that is not a no-op,
    carries the match and the next id, and puts it in the slot. *)
Theorem dispatch_new_target_starts_transition (w : World) (path : option string)
    (m : MatchResult) :
  activeTransition (state (router w)) = None →
  match_path (router w) path = Ok m →
  (committed (state (router w)) = None ∨
   ∃ c, committed (state (router w)) = Some c ∧
        (c_pathname c ≠ mr_pathname m ∨ isEqual (c_query c) (mr_query m) = false)) →
  ∃ w' t, dispatch path w = Ok (length (heap w), w') ∧
    heap w' = heap w ++ [t] ∧
    t_noop t = false ∧ t_id t = nextId (router w) ∧ t_path t = path ∧
    t_routes t = mr_routes m ∧ t_params t = mr_params m ∧
    t_query t = mr_query m ∧ t_pathname t = mr_pathname m ∧
    activeTransition (state (router w')) = Some (length (heap w)) ∧
    committed (state (router w')) = committed (state (router w)).
Proof.
  intros Hact Hm Hc. unfold dispatch. rewrite Hm, Hact.
  assert (match committed (state (router w)) with
          | Some c => String.eqb (c_pathname c) (mr_pathname m)
                      && isEqual (c_query c) (mr_query m)
          | None => false
          end = false) as ->.
  { destruct Hc as [->|(c & -> & [Hp|Hq])]; [done| |].
    - apply andb_false_iff. left. by apply String.eqb_neq.
    - rewrite Hq. apply andb_false_r. }
  rewrite start_transition_spec. do 2 eexists. split; [reflexivity|]. by simpl.
Qed.

(** X14: [dispatch] itself never changes what is committed: the committed
    match data, the matchers, the route tree and the middleware are the
    same after the call, so [isActive] answers as before. *)
Theorem dispatch_keeps_committed (w w' : World) (path : option string) (t : nat) :
  dispatch path w = Ok (t, w') →
  committed (state (router w')) = committed (state (router w)) ∧
  matchers (router w') = matchers (router w) ∧
  routes (router w') = routes (router w) ∧
  middleware (router w') = middleware (router w) ∧
  ∀ name params query,
    isActive (router w') name params query = isActive (router w) name params query.
Proof.
  intros Hd.
  assert (committed (state (router w')) = committed (state (router w)) ∧
          matchers (router w') = matchers (router w) ∧
          routes (router w') = routes (router w) ∧
          middleware (router w') = middleware (router w)) as Hframe.
  { apply dispatch_cases in Hd as (m & _ & [[_ ->]|[[_ Hst]|(w1 & w2 & Hw1 & Hst & ->)]]).
    - done.
    - rewrite start_transition_spec in Hst. by injection Hst as _ ->.
    - rewrite start_transition_spec in Hst. injection Hst as _ ->. simpl.
      destruct Hw1 as [->|(l & e & ->)]; [done|].
      by destruct (cancel_frame l e w) as (_ & -> & -> & -> & -> & _). }
  destruct Hframe as (Hc & Hms & Hrs & Hmw). repeat split; try done.
  intros name params query. unfold isActive, activeRoutes, activeParams, activeQuery.
  by rewrite Hc.
Qed.

(** X15: a call of [dispatch] either hands back the transition in the slot
    and changes nothing, or creates exactly one transition object, with the
    id [nextId] had and the dispatched path, and advances [nextId] by one;
    the new transition is a no-op or ends up in the slot. *)
Theorem dispatch_allocates_at_most_one (w w' : World) (path : option string) (t : nat) :
  dispatch path w = Ok (t, w') →
  (activeTransition (state (router w)) = Some t ∧ w' = w) ∨
  (t = length (heap w) ∧ length (heap w') = S (length (heap w)) ∧
   nextId (router w') = (nextId (router w) + 1)%Z ∧
   ∃ tr, heap w' !! t = Some tr ∧ t_id tr = nextId (router w) ∧ t_path tr = path ∧
         (t_noop tr = true ∨ activeTransition (state (router w')) = Some t)).
Proof.
  intros Hd.
  apply dispatch_cases in Hd as (m & _ & [?|[[_ Hst]|(w1 & w2 & Hw1 & Hst & ->)]]).
  - by left.
  - right. rewrite start_transition_spec in Hst. injection Hst as -> ->. simpl.
    split; [done|]. split; [rewrite length_app; simpl; lia|]. split; [done|].
    eexists. split; [by rewrite lookup_app_r, Nat.sub_diag by lia|]. simpl. auto.
  - right. rewrite start_transition_spec in Hst. injection Hst as -> ->. simpl.
    assert (nextId (router w1) = nextId (router w) ∧
            length (heap w1) = length (heap w)) as [-> Hlen].
    { destruct Hw1 as [->|(l & e & ->)]; [done|].
      by destruct (cancel_frame l e w) as (-> & _ & _ & _ & _ & -> & _). }
    rewrite Hlen. split; [done|]. split; [rewrite length_app; simpl; lia|].
    split; [done|].
    eexists. split; [by rewrite <- Hlen, lookup_app_r, Nat.sub_diag by lia|].
    simpl. auto.
Qed.

(** X16: [dispatch] keeps the transition ids unique: if every transition
    object has an id below [nextId] and no two share an id, the same holds
    after the call. *)
Theorem dispatch_keeps_ids_unique (w w' : World) (path : option string) (t : nat) :
  ids_below w → ids_distinct w →
  dispatch path w = Ok (t, w') →
  ids_below w' ∧ ids_distinct w'.
Proof.
  intros Hbelow Hdist Hd.
  apply dispatch_cases in Hd as (m & _ & [[_ ->]|Hnew]); [done|].
  assert (∃ w1 noop r', nextId (router w1) = nextId (router w) ∧
            length (heap w1) = length (heap w) ∧
            (∀ l' t', heap w1 !! l' = Some t' →
                      ∃ t0, heap w !! l' = Some t0 ∧ t_id t' = t_id t0) ∧
            nextId r' = (nextId (router w) + 1)%Z ∧
            w' = mkWorld r'
                   (heap w1 ++ [mkTransition (nextId (router w)) path (mr_pathname m)
                                  (mr_query m) (mr_params m) (mr_routes m) noop
                                  (if noop then Completed else Pending) None
                                  (if noop then [] else middleware (router w1))]))
    as (w1 & noop & r' & Hid & Hlen & Hold & Hnext & ->).
  { destruct Hnew as [[_ Hst]|(w1 & w2 & Hw1 & Hst & ->)];
      rewrite start_transition_spec in Hst; injection Hst as -> ->.
    - exists w, true. eexists. repeat split; eauto.
    - exists w1, false. eexists.
      destruct Hw1 as [->|(l & e & ->)].
      + repeat split; eauto.
      + destruct (cancel_frame l e w) as (Hn & _ & _ & _ & _ & Hl & Hh).
        rewrite Hn. repeat split; eauto. }
  assert (∀ l' t', (heap w1 ++ [mkTransition (nextId (router w)) path (mr_pathname m)
                                  (mr_query m) (mr_params m) (mr_routes m) noop
                                  (if noop then Completed else Pending) None
                                  (if noop then [] else middleware (router w1))])
                     !! l' = Some t' →
            (l' < length (heap w) ∧ ∃ t0, heap w !! l' = Some t0 ∧ t_id t' = t_id t0) ∨
            (l' = length (heap w) ∧ t_id t' = nextId (router w))) as Hlook.
  { intros l' t' Hl'. destruct (decide (l' < length (heap w1))) as [Hlt|Hge].
    - rewrite lookup_app_l in Hl' by done. left. split; [lia|]. by apply Hold.
    - rewrite lookup_app_r in Hl' by lia. right.
      destruct (l' - length (heap w1)) as [|n] eqn:Hdiff; simpl in Hl'; [|done].
      injection Hl' as <-. split; [lia|done]. }
  split.
  - intros l' t'. simpl. intros Hl'. rewrite Hnext.
    destruct (Hlook l' t' Hl') as [(_ & t0 & Ht0 & ->)|[_ ->]]; [|lia].
    specialize (Hbelow l' t0 Ht0). lia.
  - intros l1 l2 t1 t2. simpl. intros H1' H2' Hids.
    destruct (Hlook l1 t1 H1') as [(_ & t01 & Ht01 & Hid1)|[-> Hid1]];
      destruct (Hlook l2 t2 H2') as [(_ & t02 & Ht02 & Hid2)|[-> Hid2]]; [| | |done].
    + apply (Hdist l1 l2 t01 t02 Ht01 Ht02). congruence.
    + specialize (Hbelow l1 t01 Ht01). lia.
    + specialize (Hbelow l2 t02 Ht02). lia.
Qed.
End dispatch_facts.

(** ** Properties of [generate] and [transitionTo] *)

Lemma last_named_snoc name ms x :
  last_named name (ms ++ [x]) =
    if String.eqb (m_name x) name then Some x else last_named name ms.
Proof. unfold last_named. by rewrite fold_left_app. Qed.

Lemma last_named_Some name ms m :
  last_named name ms = Some m → m ∈ ms ∧ m_name m = name.
Proof.
  induction ms as [|x ms IH] using rev_ind; [done|].
  rewrite last_named_snoc. destruct (String.eqb_spec (m_name x) name) as [Hx|Hx].
  - intros [= <-]. split; [|done]. apply elem_of_app. right. by left.
  - intros Hm. destruct (IH Hm) as [Hin Hname]. split; [|done].
    apply elem_of_app. by left.
Qed.

Lemma last_named_None name ms :
  last_named name ms = None ↔ ∀ m, m ∈ ms → m_name m ≠ name.
Proof.
  induction ms as [|x ms IH] using rev_ind.
  - split; [|done]. intros _ m Hm. by apply elem_of_nil in Hm.
  - rewrite last_named_snoc. destruct (String.eqb_spec (m_name x) name) as [Hx|Hx].
    + split; [done|]. intros Hall. destruct (Hall x); [|done].
      apply elem_of_app. right. by left.
    + rewrite IH. split.
      * intros Hall m Hm. apply elem_of_app in Hm as [Hm|Hm]; [by apply Hall|].
        apply list_elem_of_singleton in Hm. by subst.
      * intros Hall m Hm. apply Hall. apply elem_of_app. by left.
Qed.

Lemma last_named_last name pre m post :
  m_name m = name → (∀ m', m' ∈ post → m_name m' ≠ name) →
  last_named name (pre ++ m :: post) = Some m.
Proof.
  intros Hm. induction post as [|x post IH] using rev_ind; intros Hpost.
  - rewrite last_named_snoc. by destruct (String.eqb_spec (m_name m) name).
  - replace (pre ++ m :: post ++ [x]) with ((pre ++ m :: post) ++ [x])
      by (by rewrite <- app_assoc).
    rewrite last_named_snoc. destruct (String.eqb_spec (m_name x) name) as [Hx|Hx].
    + destruct (Hpost x); [|done]. apply elem_of_app. right. by left.
    + apply IH. intros m' Hm'. apply Hpost. apply elem_of_app. by left.
Qed.

(** Where an entry of the matcher list comes from: a concrete branch, or
    an abstract branch together with the concrete branch at its path. *)
Lemma compiled_entry_origin tree ms m :
  compile_matchers tree = Done ms → m ∈ ms →
  (∃ c, c ∈ branches tree [] ∧ concrete c = true ∧ m = matcher_of c) ∨
  (∃ b, b ∈ branches tree [] ∧ abstract_branch b = true ∧
        m_name m = leaf_name b ∧ m_path m = branch_path b).
Proof.
  intros Hms Hm. rewrite (compile_matchers_done _ _ Hms) in Hm.
  apply elem_of_app in Hm as [Hm|Hm].
  - left. apply list_elem_of_fmap in Hm as (c & -> & Hc).
    apply list_elem_of_filter in Hc as [Hcc Hc].
    exists c. split; [done|]. split; [by apply Is_true_true|done].
  - right. apply list_elem_of_omap in Hm as ([p n] & Hentry & Halias).
    apply alias_of_Some in Halias as (_ & Hpath & Hname & _). simpl in *.
    apply record_abstracts_elem in Hentry as [Hnil|(b & Hb & Hp & Hn)];
      [by apply elem_of_nil in Hnil|].
    apply list_elem_of_filter in Hb as [Hab Hb].
    exists b. split; [done|]. split; [by apply Is_true_true|]. split; congruence.
Qed.

(** With route names that are unique in the tree, every entry under the
    name of a branch has the path of that branch. *)
Lemma compiled_entry_path tree ms b m :
  compile_matchers tree = Done ms →
  NoDup (leaf_name <$> branches tree []) →
  b ∈ branches tree [] → m ∈ ms → m_name m = leaf_name b →
  m_path m = branch_path b.
Proof.
  intros Hms Hnd Hb Hm Hname.
  destruct (compiled_entry_origin tree ms m Hms Hm)
    as [(c & Hc & _ & ->)|(b' & Hb' & _ & Hn & Hp)].
  - simpl in *. by rewrite (NoDup_fmap_eq leaf_name _ c b Hnd Hc Hb Hname).
  - rewrite Hp. f_equal. apply (NoDup_fmap_eq leaf_name _ b' b Hnd Hb' Hb). congruence.
Qed.

Section navigation_facts.
Context `{PathLib} `{Dash} `{Constants} `{PathBuild} `{InvariantLib}.
Context {L : Type} `{Location L}.

(** X17: [generate] takes the last matcher that has the name, where
    [match] takes the first that matches: with the location set, the URL is
    built from the path of that matcher, the params and the query. *)
Theorem generate_uses_last_named (a : App L) (location : L) (pre post : list Matcher)
    (m : Matcher) (name : string) (params query : option Dict) :
  app_location a = Some location →
  matchers (router (app_world a)) = Some (pre ++ m :: post) →
  m_name m = name →
  (∀ m', m' ∈ post → m_name m' ≠ name) →
  generate a name params query =
    match injectParams (m_path m) params with
    | Ok path => Ok (formatURL location (withQuery path (default ∅ query)))
    | Throw e => Throw e
    end.
Proof.
  intros Hloc Hms Hm Hpost. unfold generate.
  rewrite Hloc, Hms, (last_named_last name pre m post Hm Hpost).
  by destruct (injectParams (m_path m) params).
Qed.

(** X18: [generate] throws the invariant error as long as no location is
    set, whatever the name; with a location and a matcher list in which no
    matcher has the name it throws "No route is named" with that name. *)
Theorem generate_failures (a : App L) (name : string) (params query : option Dict) :
  (app_location a = None →
   generate a name params query =
     Throw (invariant_violation "call .listen() before using .generate()")) ∧
  (∀ location ms,
     app_location a = Some location →
     matchers (router (app_world a)) = Some ms →
     (∀ m, m ∈ ms → m_name m ≠ name) →
     generate a name params query = Throw (Error ("No route is named " +:+ name))).
Proof.
  split.
  - intros Hloc. unfold generate. by rewrite Hloc.
  - intros location ms Hloc Hms Hnone. unfold generate. rewrite Hloc, Hms.
    by rewrite (proj2 (last_named_None name ms) Hnone).
Qed.

(** X19: on a router mapped from a tree with unique route names, the URL
    generated for the name of a concrete route is built from the path of
    its branch. *)
Theorem generate_concrete_route (a : App L) (location : L) (tree : list Route)
    (ms : list Matcher) (b : list Route) (params query : option Dict) :
  compile_matchers tree = Done ms →
  matchers (router (app_world a)) = Some ms →
  app_location a = Some location →
  NoDup (leaf_name <$> branches tree []) →
  b ∈ branches tree [] → concrete b = true →
  generate a (leaf_name b) params query =
    match injectParams (branch_path b) params with
    | Ok path => Ok (formatURL location (withQuery path (default ∅ query)))
    | Throw e => Throw e
    end.
Proof.
  intros Hms Hr Hloc Hnd Hb Hc. unfold generate. rewrite Hloc, Hr.
  destruct (last_named (leaf_name b) ms) as [m|] eqn:Hlast.
  - apply last_named_Some in Hlast as [Hm Hname].
    rewrite (compiled_entry_path tree ms b m Hms Hnd Hb Hm Hname).
    by destruct (injectParams (branch_path b) params).
  - exfalso. apply (proj1 (last_named_None _ _) Hlast (matcher_of b)); [|done].
    rewrite (compile_matchers_done _ _ Hms). apply elem_of_app. left.
    apply list_elem_of_fmap_2, list_elem_of_filter. split; [by apply Is_true_true|done].
Qed.

(** X20: index forwarding in [generate].  On a router mapped from a tree
    with unique, non-empty route names, an abstract route that is the last
    abstract one at its path generates the same URL as the concrete route
    at that path. *)
Theorem generate_abstract_is_index (a : App L) (location : L) (tree : list Route)
    (ms : list Matcher) (l1 l2 : list (list Route)) (b c : list Route)
    (params query : option Dict) :
  compile_matchers tree = Done ms →
  matchers (router (app_world a)) = Some ms →
  app_location a = Some location →
  NoDup (leaf_name <$> branches tree []) →
  (∀ b', b' ∈ filter concrete (branches tree []) → leaf_name b' ≠ "") →
  filter abstract_branch (branches tree []) = l1 ++ b :: l2 →
  (∀ b', b' ∈ l2 → branch_path b' ≠ branch_path b) →
  c ∈ branches tree [] → concrete c = true → branch_path c = branch_path b →
  generate a (leaf_name b) params query = generate a (leaf_name c) params query.
Proof.
  intros Hms Hr Hloc Hnd Hnames Habs Hlater Hc Hconc Hpath.
  assert (b ∈ branches tree []) as Hb.
  { assert (b ∈ filter abstract_branch (branches tree [])) as Hin
      by (rewrite Habs; apply elem_of_app; right; by left).
    by apply list_elem_of_filter in Hin as [_ Hin]. }
  pose proof (map_alias_of_last_abstract tree ms l1 b l2 c Hms Hnames Habs Hlater
                Hc Hconc Hpath) as Halias.
  assert (matcher_of c ∈ ms) as Hcm.
  { rewrite (compile_matchers_done _ _ Hms). apply elem_of_app. left.
    apply list_elem_of_fmap_2, list_elem_of_filter. split; [by apply Is_true_true|done]. }
  unfold generate. rewrite Hloc, Hr.
  destruct (last_named (leaf_name b) ms) as [mb|] eqn:Hlb.
  2:{ exfalso. by apply (proj1 (last_named_None _ _) Hlb _ Halias). }
  destruct (last_named (leaf_name c) ms) as [mc|] eqn:Hlc.
  2:{ exfalso. by apply (proj1 (last_named_None _ _) Hlc _ Hcm). }
  apply last_named_Some in Hlb as [Hmb Hnb]. apply last_named_Some in Hlc as [Hmc Hnc].
  rewrite (compiled_entry_path tree ms b mb Hms Hnd Hb Hmb Hnb).
  rewrite (compiled_entry_path tree ms c mc Hms Hnd Hc Hmc Hnc).
  by rewrite Hpath.
Qed.

(** X21: navigating by a route name is navigating by the URL generated for
    it, with a leading [#] turned into a slash. *)
Theorem doTransition_by_name (method : Method) (a : App L) (name generated : string)
    (params query params' query' : option Dict) :
  leading_slash name = false →
  generate a name params query = Ok generated →
  leading_slash (replace_leading_hash generated) = true →
  doTransition method name params query a =
    doTransition method (replace_leading_hash generated) params' query' a.
Proof.
  intros Hname Hgen Hurl. unfold doTransition.
  destruct (app_location a) as [location|]; [|done].
  by rewrite Hname, Hgen, Hurl.
Qed.

(** X22: [transitionTo] with the URL of the transition that is pending
    returns that transition and starts nothing; it replaces the current URL
    of the location instead of adding a history entry, and attaches one
    more handler that remembers the URL the location had. *)
Theorem transitionTo_pending_target (a : App L) (location : L) (url : string)
    (params query : option Dict) (l : nat) (t : Transition) (m : MatchResult) :
  app_location a = Some location →
  app_pushState a = false →
  leading_slash url = true →
  activeTransition (state (router (app_world a))) = Some l →
  heap (app_world a) !! l = Some t →
  match_path (router (app_world a)) (Some url) = Ok m →
  t_pathname t = mr_pathname m →
  isEqual (t_query t) (mr_query m) = true →
  transitionTo url params query a =
    Ok (l, mkApp (app_world a) (Some (replaceURL url location)) false
             (app_catch a ++ [(l, getURL location)])).
Proof.
  intros Hloc Hpush Hurl Hact Ht Hm Hp Hq.
  unfold transitionTo, replaceWith, doTransition. rewrite Hact, Hloc, Hurl, Hpush.
  unfold dispatch. rewrite Hm, Hact, Ht, Hq, Hp. by rewrite String.eqb_refl.
Qed.
End navigation_facts.

(** ** The further properties at work on the example routers *)

(** Case analysis on the membership in a list that computes to a literal. *)
Ltac elem_of_literal H :=
  vm_compute in H;
  repeat (apply elem_of_cons in H as [->|H]); [..|by apply elem_of_nil in H].

(** A string that does not end in a slash is no string with a slash
    appended. *)
Ltac no_trailing_slash :=
  let s' := fresh "s" in let Hs := fresh "Hs" in let Hx := fresh "Hx" in
  intros s' Hs; pose proof (f_equal strip_trailing_slash Hs) as Hx;
  rewrite strip_trailing_slash_snoc in Hx; vm_compute in Hx; subst s';
  vm_compute in Hs; discriminate Hs.

Section more_examples.
Import Example ExampleNav.
#[local] Existing Instances Reference.path_lib Reference.dash Reference.constants.
#[local] Existing Instances ReferenceNav.path_build ReferenceNav.invariant_lib
  ReferenceNav.memory_location.

Lemma branch_path_absolute_override_witness :
  branch_path ([posts] ++ fallback :: [post]) = "/posts/:slug/:id".
Proof.
  rewrite (branch_path_absolute_override [posts] [post] fallback).
  - by vm_compute.
  - by vm_compute.
Defined.

Lemma branch_path_index_child_witness :
  branch_path (sec_branch ++ [home]) = "/".
Proof.
  rewrite (branch_path_index_child sec_branch home).
  - by vm_compute.
  - by vm_compute.
Defined.

Lemma map_throws_only_on_duplicate_witness :
  ∃ l1 b1 l2 b2 l3,
    branches [first_a; second_a] [] = l1 ++ b1 :: l2 ++ b2 :: l3 ∧
    concrete b1 = true ∧ concrete b2 = true ∧
    branch_path b1 = branch_path b2 ∧
    Error "Routes a and b have the same url path '/a'" =
      Error (dupe_message (leaf_name b1) (leaf_name b2) (branch_path b2)) ∧
    [mkMatcher [first_a] "a" "/a"; mkMatcher [second_a] "b" "/a"] =
      (matcher_of <$> filter concrete (l1 ++ b1 :: l2)) ++ [matcher_of b2].
Proof.
  apply (map_throws_only_on_duplicate [first_a; second_a]). by vm_compute.
Defined.

Lemma map_same_path_same_routes_witness :
  m_routes (mkMatcher home_branch "home" "/") = m_routes (mkMatcher home_branch "sec" "/").
Proof.
  apply (map_same_path_same_routes nested_tree
           [mkMatcher home_branch "home" "/"; mkMatcher home_branch "sec" "/"]).
  - by vm_compute.
  - intros b Hb. elem_of_literal Hb; by vm_compute.
  - by left.
  - right. by left.
  - done.
Defined.

Lemma map_matchers_layout_witness :
  ∃ aliases,
    [mkMatcher home_branch "home" "/"; mkMatcher home_branch "sec" "/"] =
      (matcher_of <$> filter concrete (branches nested_tree [])) ++ aliases ∧
    (∀ a, a ∈ aliases →
       ∃ b c, b ∈ branches nested_tree [] ∧ abstract_branch b = true ∧
              c ∈ branches nested_tree [] ∧ concrete c = true ∧
              m_name a = leaf_name b ∧ m_path a = branch_path b ∧
              branch_path c = branch_path b ∧ m_routes a = c) ∧
    (2 ≤ tree_size nested_tree)%nat.
Proof.
  apply (map_matchers_layout nested_tree
           [mkMatcher home_branch "home" "/"; mkMatcher home_branch "sec" "/"]).
  by vm_compute.
Defined.

Lemma map_aliases_index_child_witness :
  mkMatcher home_branch "sec" "/" ∈
    [mkMatcher home_branch "home" "/"; mkMatcher home_branch "sec" "/"].
Proof.
  apply (map_aliases_index_child nested_tree
           [mkMatcher home_branch "home" "/"; mkMatcher home_branch "sec" "/"]
           [app_branch] [] sec_branch sec home).
  - by vm_compute.
  - intros b Hb. elem_of_literal Hb; by vm_compute.
  - by vm_compute.
  - intros b Hb. by apply elem_of_nil in Hb.
  - by vm_compute.
  - by left.
  - done.
  - by vm_compute.
Defined.

Lemma match_ignores_trailing_slash_witness :
  match_path mapped (Some ("/posts/42" +:+ "/")) = match_path mapped (Some "/posts/42") ∧
  match_path mapped None = match_path mapped (Some "/").
Proof.
  apply (match_ignores_trailing_slash mapped "/posts/42"). no_trailing_slash.
Defined.

Lemma match_resolves_to_concrete_branch_witness :
  ∃ res, match_path mapped (Some "/posts/42") = Ok res ∧
    ((unmatched (mr_pathname res)
        [mkMatcher [posts] "posts" "/posts";
         mkMatcher [posts; post] "post" "/posts/:id";
         mkMatcher [fallback] "fallback" "/posts/:slug"] ∧
      mr_routes res = [] ∧ mr_params res = ∅) ∨
     (∃ b, b ∈ branches tree [] ∧ concrete b = true ∧
           extractParams (branch_path b) (mr_pathname res) = Some (mr_params res) ∧
           mr_routes res = map (descriptor (mr_params res)) b)).
Proof.
  apply (match_resolves_to_concrete_branch tree
           [mkMatcher [posts] "posts" "/posts";
            mkMatcher [posts; post] "post" "/posts/:id";
            mkMatcher [fallback] "fallback" "/posts/:slug"]
           mapped (Some "/posts/42")).
  - by vm_compute.
  - by vm_compute.
Defined.

Lemma isActive_monotone_witness :
  isActive (router settled) "posts" (Some ∅) (Some ∅) = true ∧
  isActive (router settled) "posts" None None = true.
Proof.
  apply (isActive_monotone (router settled) "posts"
           {[ "id" := VStr "42" ]} {[ "sort" := VStr "desc" ]} ∅ ∅).
  - by vm_compute.
  - apply map_empty_subseteq.
  - apply map_empty_subseteq.
Defined.

Lemma isActive_missing_key_witness :
  isActive (router settled) "post"
    (Some {[ "id" := VStr "42" ]}) (Some {[ "page" := VStr "2" ]}) = false.
Proof.
  apply (isActive_missing_key (router settled) "post"
           {[ "id" := VStr "42" ]} {[ "page" := VStr "2" ]} "page" (VStr "2")).
  - discriminate.
  - right. split; by vm_compute.
Defined.

Lemma dispatch_new_target_starts_transition_witness :
  ∃ w' t, dispatch (Some "/posts/7") settled = Ok (1, w') ∧
    heap w' = heap settled ++ [t] ∧
    t_noop t = false ∧ t_id t = 2%Z ∧ t_path t = Some "/posts/7" ∧
    t_routes t = map (descriptor {[ "id" := VStr "7" ]}) [posts; post] ∧
    t_params t = {[ "id" := VStr "7" ]} ∧
    t_query t = ∅ ∧ t_pathname t = "/posts/7" ∧
    activeTransition (state (router w')) = Some 1 ∧
    committed (state (router w')) = Some first_committed.
Proof.
  edestruct (dispatch_new_target_starts_transition settled (Some "/posts/7")
               (mkMatchResult (map (descriptor {[ "id" := VStr "7" ]}) [posts; post])
                  {[ "id" := VStr "7" ]} "/posts/7" ∅))
    as (w' & t & Hd).
  - by vm_compute.
  - by vm_compute.
  - right. exists first_committed. split; [by vm_compute|]. left. by vm_compute.
  - change (length (heap settled)) with 1 in Hd.
    change (nextId (router settled)) with 2%Z in Hd.
    change (committed (state (router settled))) with (Some first_committed) in Hd.
    exists w', t. exact Hd.
Defined.

Lemma dispatch_keeps_committed_witness :
  committed (state (router redirected)) = committed (state (router busy)) ∧
  matchers (router redirected) = matchers (router busy) ∧
  routes (router redirected) = routes (router busy) ∧
  middleware (router redirected) = middleware (router busy) ∧
  ∀ name params query,
    isActive (router redirected) name params query =
    isActive (router busy) name params query.
Proof.
  apply (dispatch_keeps_committed busy redirected (Some "/posts/43") 1).
  by vm_compute.
Defined.

Lemma dispatch_allocates_at_most_one_witness :
  (activeTransition (state (router busy)) = Some 1 ∧ redirected = busy) ∨
  (1 = length (heap busy) ∧ length (heap redirected) = S (length (heap busy)) ∧
   nextId (router redirected) = (nextId (router busy) + 1)%Z ∧
   ∃ tr, heap redirected !! 1 = Some tr ∧ t_id tr = nextId (router busy) ∧
         t_path tr = Some "/posts/43" ∧
         (t_noop tr = true ∨ activeTransition (state (router redirected)) = Some 1)).
Proof.
  apply (dispatch_allocates_at_most_one busy redirected (Some "/posts/43") 1).
  by vm_compute.
Defined.

Lemma dispatch_keeps_ids_unique_witness : ids_below redirected ∧ ids_distinct redirected.
Proof.
  apply (dispatch_keeps_ids_unique busy redirected (Some "/posts/43") 1).
  - intros [|l] t Hl; vm_compute in Hl; [|done]. injection Hl as <-. by vm_compute.
  - intros [|l1] [|l2] t1 t2 H1 H2 _; vm_compute in H1, H2; done.
  - by vm_compute.
Defined.

Lemma generate_uses_last_named_witness :
  generate site "post" (Some {[ "id" := VStr "7" ]}) None = Ok "/posts/7".
Proof.
  rewrite (generate_uses_last_named site ["/posts/42?sort=desc"; "/"]
             [mkMatcher [posts] "posts" "/posts"]
             [mkMatcher [fallback] "fallback" "/posts/:slug"]
             (mkMatcher [posts; post] "post" "/posts/:id") "post").
  - by vm_compute.
  - by vm_compute.
  - by vm_compute.
  - done.
  - intros m Hm. elem_of_literal Hm. by vm_compute.
Defined.

Lemma generate_failures_witness :
  generate offline "post" None None =
    Throw (invariant_violation "call .listen() before using .generate()") ∧
  generate site "nowhere" None None = Throw (Error "No route is named nowhere").
Proof.
  split.
  - by apply (proj1 (generate_failures offline "post" None None)).
  - apply (proj2 (generate_failures site "nowhere" None None)
             ["/posts/42?sort=desc"; "/"]
             [mkMatcher [posts] "posts" "/posts";
              mkMatcher [posts; post] "post" "/posts/:id";
              mkMatcher [fallback] "fallback" "/posts/:slug"]).
    + by vm_compute.
    + by vm_compute.
    + intros m Hm. elem_of_literal Hm; by vm_compute.
Defined.

Lemma generate_concrete_route_witness :
  generate nested_site "home" None (Some {[ "tab" := VStr "news" ]}) = Ok "/?tab=news".
Proof.
  change "home" with (leaf_name home_branch).
  rewrite (generate_concrete_route nested_site ["/"] nested_tree
             [mkMatcher home_branch "home" "/"; mkMatcher home_branch "sec" "/"]
             home_branch).
  - by vm_compute.
  - by vm_compute.
  - by vm_compute.
  - by vm_compute.
  - apply (bool_decide_unpack _). by vm_compute.
  - vm_compute. right. right. by left.
  - by vm_compute.
Defined.

Lemma generate_abstract_is_index_witness :
  generate nested_site "sec" None None = generate nested_site "home" None None.
Proof.
  apply (generate_abstract_is_index nested_site ["/"] nested_tree
           [mkMatcher home_branch "home" "/"; mkMatcher home_branch "sec" "/"]
           [app_branch] [] sec_branch home_branch).
  - by vm_compute.
  - by vm_compute.
  - by vm_compute.
  - apply (bool_decide_unpack _). by vm_compute.
  - intros b Hb. elem_of_literal Hb; by vm_compute.
  - by vm_compute.
  - intros b Hb. by apply elem_of_nil in Hb.
  - vm_compute. right. right. by left.
  - by vm_compute.
  - by vm_compute.
Defined.

Lemma doTransition_by_name_witness :
  doTransition SetURL "post" (Some {[ "id" := VStr "7" ]}) None site =
  doTransition SetURL "/posts/7" None None site.
Proof.
  apply (doTransition_by_name SetURL site "post" "/posts/7").
  - by vm_compute.
  - by vm_compute.
  - by vm_compute.
Defined.

Lemma transitionTo_pending_target_witness :
  transitionTo "/posts/42?sort=desc" None None site =
    Ok (0, mkApp busy (Some ["/posts/42?sort=desc"; "/"]) false
             [(0, "/posts/42?sort=desc")]).
Proof.
  rewrite (transitionTo_pending_target site ["/posts/42?sort=desc"; "/"]
             "/posts/42?sort=desc" None None 0 first_transition first_match).
  - by vm_compute.
  - by vm_compute.
  - by vm_compute.
  - by vm_compute.
  - by vm_compute.
  - by vm_compute.
  - by vm_compute.
  - by vm_compute.
  - by vm_compute.
Defined.
End more_examples.

(** ** Inputs at which the plain reading of a property fails *)

Section corrections.
Import Example.
#[local] Existing Instances Reference.path_lib Reference.dash Reference.constants.



(** C9, counterexample: on a router that was never mapped [match] throws;
    on the mapped example router the pathname of "/nowhere/?a=b" keeps its
    trailing slash and the pathname of "?a=b" is empty, because the trim
    looks at the end of the whole path, after the query. *)
Lemma match_fails_or_keeps_slash :
  match_path new_router (Some "/nowhere") =
    Throw (TypeError "Cannot read properties of undefined (reading 'some')") ∧
  dispatch (Some "/nowhere") (mkWorld new_router []) =
    Throw (TypeError "Cannot read properties of undefined (reading 'some')") ∧
  match_path mapped (Some "/nowhere/?a=b") =
    Ok (mkMatchResult [] ∅ "/nowhere/" {[ "a" := VStr "b" ]}) ∧
  match_path mapped (Some "?a=b") =
    Ok (mkMatchResult [] ∅ "" {[ "a" := VStr "b" ]}).
Proof. repeat split; vm_compute; reflexivity. Qed.
End corrections.
